(** * clue_access: the QT advertising-data decoder

    A shallow embedding of [QTDevice.from_ble_device]
    (src/clue_access/schemas.py) and of the enumerations it decodes into,
    followed by the properties of the field parser ([iter_fields]) and of
    the telemetry decoder (the body of [from_ble_device] after the field
    mapping has been collected). *)

From Stdlib Require Import ZArith List Lia Bool.
From Stdlib Require Import Floats.PrimFloat.
From Stdlib Require Strings.String Strings.Ascii.
From stdpp Require Import base option list gmap.

Local Open Scope Z_scope.

(** ** Python values *)

(** [bytes]: an immutable sequence of integers in [0, 256). *)
Abbreviation bytes := (list Byte.byte).

(** [data[i]] on a [bytes] object is a Python [int]. *)
Definition byte_val (b : Byte.byte) : Z := Z.of_N (Byte.to_N b).

(** [str]: a sequence of Unicode code points. *)
Abbreviation str := (list Z).

(** The exceptions that can leave [from_ble_device]. *)
Inductive exn : Set :=
| AssertionError
| IndexError
| UnicodeDecodeError
| StructError
| ValueError.

Inductive result (A : Type) : Type :=
| Ok (a : A)
| Err (e : exn).
Arguments Ok {A} a.
Arguments Err {A} e.

(** Exceptions propagate through sequenced statements. *)
#[global] Instance result_bind : MBind result :=
  fun A B (k : A -> result B) (r : result A) =>
    match r with
    | Ok a => k a
    | Err e => Err e
    end.

(** [data[a:b]] for non-negative [a], [b]: the slice is clipped to the
    sequence, it never raises. *)
Definition slice {A} (data : list A) (a b : nat) : list A :=
  take (b - a) (drop a data).

(** ** Enumerations *)

Module QTMode.
Inductive t : Set :=
| UNKNOWN | INSTALLER | DEALER | USER | NOSALE
| BCA | VALET | BOOTLOAD | UNCONFIGURED.

Definition value (m : t) : Z :=
  match m with
  | UNKNOWN => 0 | INSTALLER => 1 | DEALER => 2 | USER => 3 | NOSALE => 4
  | BCA => 5 | VALET => 6 | BOOTLOAD => 7 | UNCONFIGURED => 8
  end.

(** [QTMode(v)]: the member whose value is [v], [ValueError] if none. *)
Definition of_value (v : Z) : result t :=
  match v with
  | 0 => Ok UNKNOWN | 1 => Ok INSTALLER | 2 => Ok DEALER | 3 => Ok USER
  | 4 => Ok NOSALE | 5 => Ok BCA | 6 => Ok VALET | 7 => Ok BOOTLOAD
  | 8 => Ok UNCONFIGURED
  | _ => Err ValueError
  end.
End QTMode.

Module QTColor.
Inductive t : Set :=
| ORANGE | BLUE | LIGHTGREEN | RED | MEDIUMPURPLE | LIGHTGREY.

Definition value (c : t) : Z :=
  match c with
  | ORANGE => 1 | BLUE => 2 | LIGHTGREEN => 3
  | RED => 4 | MEDIUMPURPLE => 5 | LIGHTGREY => 6
  end.

(** [QTColor(v)]: the member whose value is [v], [ValueError] if none. *)
Definition of_value (v : Z) : result t :=
  match v with
  | 1 => Ok ORANGE | 2 => Ok BLUE | 3 => Ok LIGHTGREEN
  | 4 => Ok RED | 5 => Ok MEDIUMPURPLE | 6 => Ok LIGHTGREY
  | _ => Err ValueError
  end.
End QTColor.

(** ** The field parser: [iter_fields] *)

(** One pair yielded by the generator. *)
Abbreviation field := (Z * bytes)%type.

(** What one trip through the [while] loop does, started with the local
    variable [offset]. *)
Inductive step : Type :=
| Exhausted                                   (* loop test is false *)
| Stop                                        (* [length == 0]: return *)
| Fail (e : exn)                              (* an index is out of range *)
| Yield (f : field) (offset' : nat).          (* yield, then advance *)

Definition iter_step (data : bytes) (offset : nat) : step :=
  if (offset <? length data)%nat then
    match data !! offset with
    | None => Fail IndexError
    | Some l =>
        let L := Z.to_nat (byte_val l) in
        if (L =? 0)%nat then Stop
        else
          match data !! (offset + 1)%nat with
          | None => Fail IndexError
          | Some t =>
              Yield (byte_val t, slice data (offset + 2) (offset + L + 1))
                    (offset + L + 1)
          end
    end
  else Exhausted.

(** The state a generator is left in. *)
Inductive gen_state : Set :=
| Suspended (offset : nat)     (* at the [yield], more may come *)
| Returned                     (* StopIteration *)
| Raised (e : exn).

(** The generator resumed at most [n] times from [offset]: the pairs it
    yielded, and the state it is left in. *)
Fixpoint run_gen (n : nat) (data : bytes) (offset : nat)
  : list field * gen_state :=
  match n with
  | O => ([], Suspended offset)
  | S n' =>
      match iter_step data offset with
      | Exhausted | Stop => ([], Returned)
      | Fail e => ([], Raised e)
      | Yield f offset' =>
          let '(fs, st) := run_gen n' data offset' in (f :: fs, st)
      end
  end.

(** The number of times the loop body is entered within [n] resumptions. *)
Fixpoint iterations (n : nat) (data : bytes) (offset : nat) : nat :=
  match n with
  | O => O
  | S n' =>
      match iter_step data offset with
      | Exhausted => O
      | Stop | Fail _ => 1
      | Yield _ offset' => S (iterations n' data offset')
      end
  end.

(** [iter_fields(data)] run until it finishes; [length data / 2 + 1]
    resumptions always suffice (see [run_gen_finishes]). *)
Definition iter_fields (data : bytes) : list field * gen_state :=
  run_gen (S (length data / 2)) data 0.

(** The [for] loop of [from_ble_device] over the generator, filling the
    dictionary [fields]: a later pair overwrites an earlier one with the
    same key. *)
Definition collect (fs : list field) : gmap Z bytes :=
  foldl (fun (fields : gmap Z bytes) (f : field) => <[f.1 := f.2]> fields) ∅ fs.

(** The loop ends when the generator returns; an exception raised by the
    generator leaves the loop and the function.  The generator is never
    left suspended ([iter_fields_finished]), so the third case is dead. *)
Definition parse_fields (raw_data : bytes) : result (gmap Z bytes) :=
  match iter_fields raw_data with
  | (fs, Returned) => Ok (collect fs)
  | (_, Raised e) => Err e
  | (fs, Suspended _) => Ok (collect fs)
  end.

(** ** Library functions used by the decoder *)

Definition in_range (lo hi v : Z) : bool := (lo <=? v) && (v <=? hi).

(** The six payload bits of a continuation byte. *)
Definition cont (v : Z) : Z := Z.land v 0x3F.

(** [b.decode("utf-8")] with the default strict error handler: the
    well-formed byte sequences of the Unicode standard (no overlong forms,
    no surrogates, nothing above U+10FFFF); anything else raises
    [UnicodeDecodeError]. *)
Fixpoint utf8_decode (b : bytes) : result str :=
  match b with
  | [] => Ok []
  | b0 :: r0 =>
      let c0 := byte_val b0 in
      if c0 <? 0x80 then
        s ← utf8_decode r0; Ok (c0 :: s)
      else if in_range 0xC2 0xDF c0 then
        match r0 with
        | b1 :: r1 =>
            let c1 := byte_val b1 in
            if in_range 0x80 0xBF c1 then
              s ← utf8_decode r1;
              Ok (Z.lor (Z.shiftl (Z.land c0 0x1F) 6) (cont c1) :: s)
            else Err UnicodeDecodeError
        | _ => Err UnicodeDecodeError
        end
      else if in_range 0xE0 0xEF c0 then
        match r0 with
        | b1 :: b2 :: r2 =>
            let c1 := byte_val b1 in
            let c2 := byte_val b2 in
            let lo := if c0 =? 0xE0 then 0xA0 else 0x80 in
            let hi := if c0 =? 0xED then 0x9F else 0xBF in
            if in_range lo hi c1 && in_range 0x80 0xBF c2 then
              s ← utf8_decode r2;
              Ok (Z.lor (Z.shiftl (Z.land c0 0x0F) 12)
                    (Z.lor (Z.shiftl (cont c1) 6) (cont c2)) :: s)
            else Err UnicodeDecodeError
        | _ => Err UnicodeDecodeError
        end
      else if in_range 0xF0 0xF4 c0 then
        match r0 with
        | b1 :: b2 :: b3 :: r3 =>
            let c1 := byte_val b1 in
            let c2 := byte_val b2 in
            let c3 := byte_val b3 in
            let lo := if c0 =? 0xF0 then 0x90 else 0x80 in
            let hi := if c0 =? 0xF4 then 0x8F else 0xBF in
            if in_range lo hi c1 && in_range 0x80 0xBF c2
               && in_range 0x80 0xBF c3 then
              s ← utf8_decode r3;
              Ok (Z.lor (Z.shiftl (Z.land c0 0x07) 18)
                    (Z.lor (Z.shiftl (cont c1) 12)
                       (Z.lor (Z.shiftl (cont c2) 6) (cont c3))) :: s)
            else Err UnicodeDecodeError
        | _ => Err UnicodeDecodeError
        end
      else Err UnicodeDecodeError
  end.

(** [struct.unpack("<BBBBBB", b)]: six unsigned bytes, [struct.error]
    unless the buffer is exactly six bytes long. *)
Definition struct_unpack (b : bytes) : result (Z * Z * Z * Z * Z * Z) :=
  match b with
  | [b0; b1; b2; b3; b4; b5] =>
      Ok (byte_val b0, byte_val b1, byte_val b2,
          byte_val b3, byte_val b4, byte_val b5)
  | _ => Err StructError
  end.

(** [float(n)] for a positive integer; exact below [2^53]. *)
Fixpoint float_of_pos (p : positive) : float :=
  match p with
  | xH => 1
  | xO p' => 2 * float_of_pos p'
  | xI p' => 2 * float_of_pos p' + 1
  end%float.

Definition float_of_Z (z : Z) : float :=
  match z with
  | Z0 => 0
  | Zpos p => float_of_pos p
  | Zneg p => - float_of_pos p
  end%float.

(** [a / b] on integers is true division: the binary64 nearest to the
    quotient, which for operands below [2^53] is the IEEE quotient of
    the operands. *)
Definition truediv (a b : Z) : float := (float_of_Z a / float_of_Z b)%float.

(** [bool(n)] on an integer. *)
Definition bool_of_int (n : Z) : bool := negb (n =? 0).

(** ** Records *)

(** The attributes of a [BLEDevice] that [from_ble_device] reads. *)
Module BLEDevice.
Record t : Type := {
  id : option Z;
  mac : str;
  name : option str;
  raw_data : option bytes
}.
End BLEDevice.

Module QTDevice.
Record t : Type := {
  ble_device_id : Z;
  name : str;
  mac : str;
  color : QTColor.t;
  mode : QTMode.t;
  armed : bool;
  snowmode : bool;
  vbat : float
}.
End QTDevice.

(** ** The telemetry decoder *)

(** The color and mode integers assembled from the unpacked bytes. *)
Definition color_bits (u0 u1 : Z) : Z :=
  Z.lor (Z.shiftr (Z.land u0 0xC0) 6) (Z.shiftr (Z.land u1 0xC0) 4).

Definition mode_bits (u2 u3 : Z) : Z :=
  Z.lor (Z.shiftr (Z.land u2 0xC0) 6) (Z.shiftr (Z.land u3 0x40) 4).

(** [from_ble_device] from the line [manufacturer_data = ...] on: what is
    made of the collected [fields]. *)
Definition decode_fields (fields : gmap Z bytes) (mac : str) (ble_device_id : Z)
  : result QTDevice.t :=
  let manufacturer_data := default [] (fields !! 255) in
  name ← utf8_decode (default [] (fields !! 9));
  unpacked ← struct_unpack manufacturer_data;
  let '(u0, u1, u2, u3, u4, u5) := unpacked in
  color ← QTColor.of_value (color_bits u0 u1);
  mode ← QTMode.of_value (mode_bits u2 u3);
  let armed := bool_of_int (Z.land u3 0x80) in
  let snowmode := bool_of_int (Z.land u4 0x40) in
  let vbat := truediv (u5 * 60) 1000 in
  Ok {| QTDevice.name := name;
        QTDevice.mac := mac;
        QTDevice.color := color;
        QTDevice.mode := mode;
        QTDevice.armed := armed;
        QTDevice.snowmode := snowmode;
        QTDevice.vbat := vbat;
        QTDevice.ble_device_id := ble_device_id |}.

(** [assert x is not None, msg] *)
Definition assert_some {A} (x : option A) : result A :=
  match x with
  | Some a => Ok a
  | None => Err AssertionError
  end.

Definition from_ble_device (ble_device : BLEDevice.t) : result QTDevice.t :=
  _ ← assert_some (BLEDevice.name ble_device);
  raw_data ← assert_some (BLEDevice.raw_data ble_device);
  id ← assert_some (BLEDevice.id ble_device);
  fields ← parse_fields raw_data;
  decode_fields fields (BLEDevice.mac ble_device) id.

(** ** Buffers built from records

    The buffer of the round-trip property: each record [(type, value)]
    contributes the length byte [len(value) + 1], the type byte and the
    value bytes. *)

Definition length_byte (n : nat) : Byte.byte :=
  default Byte.x00 (Byte.of_N (N.of_nat n)).

Definition encode_record (r : Byte.byte * bytes) : bytes :=
  length_byte (length r.2 + 1) :: r.1 :: r.2.

Definition encode (rs : list (Byte.byte * bytes)) : bytes :=
  concat (map encode_record rs).

(** The pair the parser is to yield for a record. *)
Definition pair_of (r : Byte.byte * bytes) : field := (byte_val r.1, r.2).

(** A value fits a record when its length byte fits a byte. *)
Definition fits (r : Byte.byte * bytes) : Prop := (length r.2 <= 254)%nat.

(** A generator that has finished, one way or the other. *)
Definition finished (st : gen_state) : Prop :=
  match st with
  | Suspended _ => False
  | _ => True
  end.

(** The claimed overrun: a record starts at [offset] whose declared length
    reaches past the end of the buffer. *)
Definition overruns (data : bytes) (offset : nat) : Prop :=
  exists l, data !! offset = Some l /\ byte_val l <> 0 /\
    (length data < offset + Z.to_nat (byte_val l) + 1)%nat.

(** ** Sample inputs *)

Module Sample.
Import Byte Stdlib.Strings.String.

(** The code points of an ASCII literal. *)
Definition str_of (s : String.string) : str :=
  map (fun a => Z.of_N (Ascii.N_of_ascii a)) (String.list_ascii_of_string s).

Definition mac : str := str_of "C4:7C:8D:6A:12:9F"%string.

(** b"QT-1" *)
Definition name : bytes := [x51; x54; x2d; x31].

(** The payload of the specification's example. *)
Definition payload : bytes := [x40; x80; xc0; xc0; x40; xc8].

(** A payload whose bits assemble to color 3 and mode 3. *)
Definition payload_user : bytes := [xc0; x00; xc0; x80; x40; xc8].

(** Color bits 0: no member of [QTColor]. *)
Definition payload_nocolor : bytes := [x00; x00; xc0; x80; x40; xc8].

Definition records : list (Byte.byte * bytes) :=
  [(x09, name); (xff, payload_user); (x01, [])].

(** Advertising data with the name given twice. *)
Definition renamed : bytes :=
  encode [(x09, name); (xff, payload_user); (x09, [x51; x54])].

(** A record declaring two value bytes, with one present. *)
Definition truncated : bytes := [x03; x09; x41].

End Sample.

(** ** Auxiliary notions for the further properties *)

(** A generator state seen from a buffer with [k] more bytes in front. *)
Definition shift_state (k : nat) (st : gen_state) : gen_state :=
  match st with
  | Suspended offset => Suspended (k + offset)
  | _ => st
  end.

(** The bytes of the buffer a yielded pair accounts for: its value, its
    type byte and its length byte. *)
Definition footprint (f : field) : nat := (length f.2 + 2)%nat.

(** A manufacturer payload whose bits assemble to given color and mode
    integers (the low two bits go to the top of one byte, the next bits to
    the top of the following byte), with given flags and battery byte. *)
Definition top_bits (v : Z) : Byte.byte :=
  default Byte.x00 (Byte.of_N (Z.to_N (Z.shiftl (Z.land v 3) 6))).

Definition payload_of (color mode : Z) (armed snowmode : bool)
    (battery : Byte.byte) : bytes :=
  [ top_bits color;
    top_bits (Z.shiftr color 2);
    top_bits mode;
    default Byte.x00
      (Byte.of_N (Z.to_N (Z.lor (Z.shiftl (Z.land (Z.shiftr mode 2) 1) 6)
                                (if armed then 0x80 else 0))));
    (if snowmode then Byte.x40 else Byte.x00);
    battery ].

(** ** Base64 and the creation of a [BLEDevice] *)

(** An integer stored into an [unsigned char]. *)
Definition byte_of_Z (z : Z) : Byte.byte :=
  default Byte.x00 (Byte.of_N (Z.to_N (Z.land z 0xFF))).

(** What [base64.b64decode] called on a [str] can raise: [ValueError] for
    a character that is not ASCII, and [binascii.Error]. *)
Inductive b64_exn : Set :=
| NotAscii
| BinasciiError.

Inductive attempt (A : Type) : Type :=
| Value (a : A)
| Raise (e : b64_exn).
Arguments Value {A} a.
Arguments Raise {A} e.

Module Base64.

(** The character of a six-bit value in the alphabet
    [A-Z a-z 0-9 + /]. *)
Definition b2a (v : Z) : Z :=
  if v <? 26 then 65 + v
  else if v <? 52 then 71 + v
  else if v <? 62 then v - 4
  else if v =? 62 then 43
  else 47.

(** The six-bit value of a character, if it is in the alphabet. *)
Definition a2b (c : Z) : option Z :=
  if in_range 65 90 c then Some (c - 65)
  else if in_range 97 122 c then Some (c - 71)
  else if in_range 48 57 c then Some (c + 4)
  else if c =? 43 then Some 62
  else if c =? 47 then Some 63
  else None.

(** The padding character [=]. *)
Definition PAD : Z := 61.

Definition chr (v : Z) : Byte.byte := byte_of_Z (b2a v).

(** [base64.b64encode(s)]: [binascii.b2a_base64] without the newline.
    Three bytes give four characters; one or two bytes left over give
    two or three characters and padding. *)
Fixpoint b64encode (s : bytes) : bytes :=
  match s with
  | [] => []
  | [a] =>
      let A := byte_val a in
      [chr (Z.shiftr A 2); chr (Z.shiftl (Z.land A 3) 4);
       byte_of_Z PAD; byte_of_Z PAD]
  | [a; b] =>
      let A := byte_val a in
      let B := byte_val b in
      [chr (Z.shiftr A 2);
       chr (Z.lor (Z.shiftl (Z.land A 3) 4) (Z.shiftr B 4));
       chr (Z.shiftl (Z.land B 0xF) 2);
       byte_of_Z PAD]
  | a :: b :: c :: rest =>
      let A := byte_val a in
      let B := byte_val b in
      let C := byte_val c in
      chr (Z.shiftr A 2)
      :: chr (Z.lor (Z.shiftl (Z.land A 3) 4) (Z.shiftr B 4))
      :: chr (Z.lor (Z.shiftl (Z.land B 0xF) 2) (Z.shiftr C 6))
      :: chr (Z.land C 0x3F)
      :: b64encode rest
  end.

(** A decoded byte put in front of what the rest of the input gives. *)
Definition emit (b : Z) (r : attempt bytes) : attempt bytes :=
  match r with
  | Value bs => Value (byte_of_Z b :: bs)
  | Raise e => Raise e
  end.

(** The loop of [binascii.a2b_base64] in its default, non-strict mode,
    with its variables [quad_pos], [leftchar] and [pad_count]: characters
    outside the alphabet are skipped, a padding sequence that completes a
    quad ends the decoding, and an incomplete quad at the end of the
    input raises [binascii.Error]. *)
Fixpoint a2b_base64 (s : list Z) (quad_pos : nat) (leftchar : Z)
    (pad_count : nat) : attempt bytes :=
  match s with
  | [] => if (quad_pos =? 0)%nat then Value [] else Raise BinasciiError
  | this_ch :: s' =>
      if this_ch =? PAD then
        if (2 <=? quad_pos)%nat then
          if (4 <=? quad_pos + (pad_count + 1))%nat then Value []
          else a2b_base64 s' quad_pos leftchar (pad_count + 1)
        else a2b_base64 s' quad_pos leftchar pad_count
      else
        match a2b this_ch with
        | None => a2b_base64 s' quad_pos leftchar pad_count
        | Some v =>
            match quad_pos with
            | 0%nat => a2b_base64 s' 1 v 0
            | 1%nat =>
                emit (Z.lor (Z.shiftl leftchar 2) (Z.shiftr v 4))
                  (a2b_base64 s' 2 (Z.land v 0xF) 0)
            | 2%nat =>
                emit (Z.lor (Z.shiftl leftchar 4) (Z.shiftr v 2))
                  (a2b_base64 s' 3 (Z.land v 3) 0)
            | _ =>
                emit (Z.lor (Z.shiftl leftchar 6) v)
                  (a2b_base64 s' 0 0 0)
            end
        end
  end.

(** [base64.b64decode(s)] for a [str]: the string is encoded as ASCII
    first. *)
Definition b64decode (s : str) : attempt bytes :=
  if forallb (fun c => c <? 128) s then a2b_base64 s 0 0 0
  else Raise NotAscii.

End Base64.

(** The attributes of a [BLEDeviceCreate] that [from_create] turns into
    the attributes of [BLEDevice.t]; the others (signal strength, time,
    position, ...) are copied as they are. *)
Module BLEDeviceCreate.
Record t : Type := {
  mac : str;
  name : option str;
  raw_data : option str
}.
End BLEDeviceCreate.

(** [BLEDevice.from_create]: the raw data are Base64 text, decoded unless
    missing or empty; the id is left at its default. *)
Definition from_create (raw_device : BLEDeviceCreate.t) : attempt BLEDevice.t :=
  let raw_data_bytes :=
    match BLEDeviceCreate.raw_data raw_device with
    | None | Some [] => Value None
    | Some s =>
        match Base64.b64decode s with
        | Value b => Value (Some b)
        | Raise e => Raise e
        end
    end in
  match raw_data_bytes with
  | Value raw_data_bytes =>
      Value {| BLEDevice.id := None;
               BLEDevice.mac := BLEDeviceCreate.mac raw_device;
               BLEDevice.name := BLEDeviceCreate.name raw_device;
               BLEDevice.raw_data := raw_data_bytes |}
  | Raise e => Raise e
  end.

(** [BLEDevice.raw_data_b64]: the raw data as Base64 text, [None] when
    they are missing or empty. *)
Definition raw_data_b64 (self : BLEDevice.t) : result (option str) :=
  match BLEDevice.raw_data self with
  | None | Some [] => Ok None
  | Some b => s ← utf8_decode (Base64.b64encode b); Ok (Some s)
  end.

(** The Base64 text of a byte string, as a [str]. *)
Definition b64text (b : bytes) : str := map byte_val (Base64.b64encode b).

(** A device with its id set, as it is once it has been stored. *)
Definition with_id (id : Z) (d : BLEDevice.t) : BLEDevice.t :=
  {| BLEDevice.id := Some id;
     BLEDevice.mac := BLEDevice.mac d;
     BLEDevice.name := BLEDevice.name d;
     BLEDevice.raw_data := BLEDevice.raw_data d |}.

(** Every byte, for properties checked by running over all of them. *)
Definition all_bytes : bytes :=
  map (fun n => byte_of_Z (Z.of_nat n)) (seq 0 256).

(** The second and third character value of a group, as the encoder
    assembles them. *)
Definition sextet1 (A B : Z) : Z := Z.lor (Z.shiftl (Z.land A 3) 4) (Z.shiftr B 4).
Definition sextet2 (B C : Z) : Z := Z.lor (Z.shiftl (Z.land B 0xF) 2) (Z.shiftr C 6).

(** The checks on one and on two bytes behind the Base64 round trip. *)
Definition check_sextet1 (a b : Byte.byte) : bool :=
  let A := byte_val a in
  let B := byte_val b in
  let s1 := sextet1 A B in
  in_range 0 63 (Z.shiftr A 2) && in_range 0 63 s1
  && (Z.lor (Z.shiftl (Z.shiftr A 2) 2) (Z.shiftr s1 4) =? A)
  && (Z.land s1 0xF =? Z.shiftr B 4)
  && in_range 0 63 (sextet1 A 0)
  && (Z.lor (Z.shiftl (Z.shiftr A 2) 2) (Z.shiftr (sextet1 A 0) 4) =? A).

Definition check_sextet2 (b c : Byte.byte) : bool :=
  let B := byte_val b in
  let C := byte_val c in
  let s2 := sextet2 B C in
  in_range 0 63 s2 && in_range 0 63 (Z.land C 0x3F)
  && (Z.lor (Z.shiftl (Z.shiftr B 4) 4) (Z.shiftr s2 2) =? B)
  && (Z.lor (Z.shiftl (Z.land s2 3) 6) (Z.land C 0x3F) =? C)
  && in_range 0 63 (sextet2 B 0)
  && (Z.lor (Z.shiftl (Z.shiftr B 4) 4) (Z.shiftr (sextet2 B 0) 2) =? B).

Definition check_char (v : Z) : bool :=
  match Base64.a2b (Base64.b2a v) with
  | Some v' => v' =? v
  | None => false
  end
  && negb (Base64.b2a v =? Base64.PAD)
  && in_range 0 127 (Base64.b2a v)
  && (byte_val (Base64.chr v) =? Base64.b2a v).

(** The four ways a buffer can end after its whole records. *)
Inductive tail_shape : bytes -> list field -> gen_state -> Prop :=
| tail_end : tail_shape [] [] Returned
| tail_zero rest : tail_shape (Byte.x00 :: rest) [] Returned
| tail_lone l :
    byte_val l <> 0 -> tail_shape [l] [] (Raised IndexError)
| tail_short l t v :
    (length v + 1 < Z.to_nat (byte_val l))%nat ->
    tail_shape (l :: t :: v) [(byte_val t, v)] Returned.

(** * Properties of the field parser *)

Section Parser.

Implicit Types (data pre rest : bytes) (offset n : nat).

Lemma length_byte_val n :
  (n <= 255)%nat -> Z.to_nat (byte_val (length_byte n)) = n.
Proof.
  intros Hn. unfold length_byte, byte_val.
  destruct (Byte.of_N (N.of_nat n)) as [b|] eqn:Hb; simpl.
  - apply Byte.to_of_N in Hb. rewrite Hb. lia.
  - apply Byte.of_N_None_iff in Hb. lia.
Qed.

(** A pair is yielded only when the type byte is inside the buffer, and
    the offset then moves past the length and type bytes at least. *)
Lemma iter_step_Yield data offset f offset' :
  iter_step data offset = Yield f offset' ->
  exists l t,
    data !! offset = Some l /\ data !! (offset + 1)%nat = Some t /\
    (1 <= Z.to_nat (byte_val l))%nat /\
    f = (byte_val t,
         slice data (offset + 2) (offset + Z.to_nat (byte_val l) + 1)) /\
    offset' = (offset + Z.to_nat (byte_val l) + 1)%nat.
Proof.
  unfold iter_step. intros H.
  destruct (offset <? length data)%nat; [|done].
  destruct (data !! offset) as [l|]; [|done].
  destruct (Z.to_nat (byte_val l) =? 0)%nat eqn:HL; [done|].
  destruct (data !! (offset + 1)%nat) as [t|]; [|done].
  apply Nat.eqb_neq in HL. exists l, t. simplify_eq.
  repeat split; lia.
Qed.

Lemma iter_step_advance data offset f offset' :
  iter_step data offset = Yield f offset' ->
  (offset + 2 <= offset')%nat /\ (offset + 2 <= length data)%nat.
Proof.
  intros (l & t & _ & Ht & HL & _ & ->)%iter_step_Yield.
  apply lookup_lt_Some in Ht. lia.
Qed.

Lemma half_rest (len offset offset' : nat) :
  (offset + 2 <= offset')%nat -> (offset + 2 <= len)%nat ->
  ((len - offset') / 2 + 1 <= (len - offset) / 2)%nat.
Proof.
  intros Hadv Hin.
  replace (len - offset)%nat with ((len - offset - 2) + 1 * 2)%nat by lia.
  rewrite Nat.div_add by done.
  pose proof (Nat.Div0.div_le_mono (len - offset') (len - offset - 2) 2).
  lia.
Qed.

(** More fuel does not change a finished run. *)
Lemma run_gen_mono n m data offset :
  (n <= m)%nat -> finished (run_gen n data offset).2 ->
  run_gen m data offset = run_gen n data offset.
Proof.
  revert m offset. induction n as [|n IH]; intros m offset Hle Hfin.
  - done.
  - destruct m as [|m]; [lia|]. simpl in *.
    destruct (iter_step data offset) as [| | e|f offset']; try done.
    specialize (IH m offset' ltac:(lia)).
    destruct (run_gen n data offset') as [fs st].
    simpl in *. by rewrite IH.
Qed.

(** Half of what is left of the buffer, plus one, is fuel enough. *)
Lemma run_gen_finishes n data offset :
  ((length data - offset) / 2 < n)%nat ->
  finished (run_gen n data offset).2.
Proof.
  revert offset. induction n as [|n IH]; intros offset Hn; [lia|].
  cbn [run_gen]. destruct (iter_step data offset) as [| | e|f offset'] eqn:Hs; try done.
  apply iter_step_advance in Hs as [Hadv Hin].
  specialize (IH offset').
  destruct (run_gen n data offset') as [fs st]. apply IH.
  pose proof (half_rest (length data) offset offset' Hadv Hin). lia.
Qed.

Lemma iterations_bound n data offset :
  (iterations n data offset <= (length data - offset) / 2 + 1)%nat.
Proof.
  revert offset. induction n as [|n IH]; intros offset; cbn [iterations]; [lia|].
  destruct (iter_step data offset) as [| | e|f offset'] eqn:Hs; try lia.
  apply iter_step_advance in Hs as [Hadv Hin].
  specialize (IH offset').
  pose proof (half_rest (length data) offset offset' Hadv Hin). lia.
Qed.

Lemma iter_fields_finished data : finished (iter_fields data).2.
Proof. apply run_gen_finishes. rewrite Nat.sub_0_r. lia. Qed.

(** Any finished run is the run of [iter_fields]. *)
Lemma iter_fields_run n data fs st :
  run_gen n data 0 = (fs, st) -> finished st -> iter_fields data = (fs, st).
Proof.
  intros Hrun Hfin. unfold iter_fields.
  pose proof (iter_fields_finished data) as Hfin'. unfold iter_fields in Hfin'.
  destruct (Nat.le_ge_cases n (S (length data / 2))) as [Hle|Hle].
  - rewrite (run_gen_mono n _ data 0 Hle); [done|by rewrite Hrun].
  - by rewrite <- (run_gen_mono _ n data 0 Hle Hfin').
Qed.

(** The parser standing at a whole record yields its pair and moves to
    the byte after it. *)
Lemma iter_step_record pre r rest :
  fits r ->
  iter_step (pre ++ encode_record r ++ rest) (length pre)
  = Yield (pair_of r) (length (pre ++ encode_record r)).
Proof.
  destruct r as [t v]. unfold fits, encode_record, pair_of, iter_step. simpl.
  intros Hv.
  assert ((length pre <? length (pre ++ length_byte (length v + 1) :: t :: v ++ rest))%nat
          = true) as ->.
  { apply Nat.ltb_lt. rewrite length_app. simpl. lia. }
  rewrite list_lookup_middle by done.
  rewrite length_byte_val by lia.
  replace (length v + 1 =? 0)%nat with false by (symmetry; apply Nat.eqb_neq; lia).
  rewrite (lookup_app_r pre) by lia.
  replace (length pre + 1 - length pre)%nat with 1%nat by lia. simpl.
  f_equal.
  - f_equal. unfold slice.
    replace (length pre + (length v + 1) + 1 - (length pre + 2))%nat
      with (length v) by lia.
    rewrite drop_app_ge by lia.
    replace (length pre + 2 - length pre)%nat with 2%nat by lia. simpl.
    by rewrite drop_0, take_app_length.
  - rewrite length_app. simpl. lia.
Qed.

(** Whole records in front of the parser are yielded one by one, whatever
    follows them. *)
Lemma run_gen_encode rs pre rest n :
  Forall fits rs ->
  run_gen (length rs + n) (pre ++ encode rs ++ rest) (length pre)
  = let '(fs, st) :=
      run_gen n (pre ++ encode rs ++ rest) (length (pre ++ encode rs)) in
    (map pair_of rs ++ fs, st).
Proof.
  revert pre. induction rs as [|r rs IH]; intros pre Hrs.
  - simpl. rewrite app_nil_r. by destruct (run_gen n _ _).
  - apply Forall_cons in Hrs as [Hr Hrs].
    change (encode (r :: rs)) with (encode_record r ++ encode rs).
    cbn [length Nat.add run_gen map]. rewrite <- (app_assoc (encode_record r)).
    rewrite iter_step_record by done.
    specialize (IH (pre ++ encode_record r) Hrs).
    rewrite <- !(app_assoc pre) in IH. rewrite IH.
    by destruct (run_gen n _ _).
Qed.

(** The same from the start of the buffer, for [iter_fields]. *)
Lemma iter_fields_encode rs rest n fs st :
  Forall fits rs ->
  run_gen n (encode rs ++ rest) (length (encode rs)) = (fs, st) ->
  finished st ->
  iter_fields (encode rs ++ rest) = (map pair_of rs ++ fs, st).
Proof.
  intros Hrs Hrun Hfin.
  apply (iter_fields_run (length rs + n)); [|done].
  pose proof (run_gen_encode rs [] rest n Hrs) as H. simpl in H.
  by rewrite H, Hrun.
Qed.

Lemma iter_step_end data : iter_step data (length data) = Exhausted.
Proof.
  unfold iter_step.
  by replace (length data <? length data)%nat with false
    by (symmetry; apply Nat.ltb_ge; lia).
Qed.

Lemma iter_step_zero pre rest :
  iter_step (pre ++ Byte.x00 :: rest) (length pre) = Stop.
Proof.
  unfold iter_step. rewrite list_lookup_middle by done.
  replace (length pre <? length (pre ++ Byte.x00 :: rest))%nat with true; [done|].
  symmetry. apply Nat.ltb_lt. rewrite length_app. simpl. lia.
Qed.

(** A non-zero length byte at the very end: the type byte is missing. *)
Lemma iter_step_no_type pre l :
  byte_val l <> 0 -> iter_step (pre ++ [l]) (length pre) = Fail IndexError.
Proof.
  intros Hl. unfold iter_step. rewrite list_lookup_middle by done.
  replace (length pre <? length (pre ++ [l]))%nat with true
    by (symmetry; apply Nat.ltb_lt; rewrite length_app; simpl; lia).
  replace (Z.to_nat (byte_val l) =? 0)%nat with false.
  - rewrite lookup_ge_None_2; [done|]. rewrite length_app. simpl. lia.
  - symmetry. apply Nat.eqb_neq. unfold byte_val in *. lia.
Qed.

(** A type byte followed by fewer value bytes than declared: the slice is
    clipped to what is there, and the offset moves past the buffer. *)
Lemma iter_step_short pre l t v :
  (length v + 1 < Z.to_nat (byte_val l))%nat ->
  exists offset',
    iter_step (pre ++ l :: t :: v) (length pre)
    = Yield (byte_val t, v) offset' /\
    (length (pre ++ l :: t :: v) < offset')%nat.
Proof.
  intros Hl. eexists. unfold iter_step. rewrite list_lookup_middle by done.
  replace (length pre <? length (pre ++ l :: t :: v))%nat with true
    by (symmetry; apply Nat.ltb_lt; rewrite length_app; simpl; lia).
  replace (Z.to_nat (byte_val l) =? 0)%nat with false
    by (symmetry; apply Nat.eqb_neq; lia).
  rewrite (lookup_app_r pre) by lia.
  replace (length pre + 1 - length pre)%nat with 1%nat by lia. simpl.
  split.
  - f_equal. f_equal. unfold slice. rewrite drop_app_ge by lia.
    replace (length pre + 2 - length pre)%nat with 2%nat by lia. simpl.
    rewrite drop_0. apply take_ge. lia.
  - rewrite length_app. simpl. lia.
Qed.

Lemma iter_step_past data offset :
  (length data <= offset)%nat -> iter_step data offset = Exhausted.
Proof.
  intros H. unfold iter_step.
  by replace (offset <? length data)%nat with false
    by (symmetry; apply Nat.ltb_ge; lia).
Qed.

End Parser.

(** The dictionary keeps, for each key, the value inserted last. *)
Lemma collect_snoc (fs : list field) (f : field) :
  collect (fs ++ [f]) = <[f.1 := f.2]> (collect fs).
Proof. unfold collect. by rewrite foldl_app. Qed.

Lemma collect_last (fs1 fs2 : list field) (k : Z) (v : bytes) :
  k ∉ fs2.*1 -> collect (fs1 ++ (k, v) :: fs2) !! k = Some v.
Proof.
  induction fs2 as [|f fs2 IH] using rev_ind; intros Hk.
  - rewrite collect_snoc. apply lookup_insert_eq.
  - rewrite fmap_app, not_elem_of_app in Hk. destruct Hk as [Hk Hf].
    rewrite app_comm_cons, app_assoc, collect_snoc.
    rewrite lookup_insert_ne; [by apply IH|].
    simpl in Hf. set_solver.
Qed.

(** * Properties of the telemetry decoder *)

Section Decoder.

Implicit Types (fields : gmap Z bytes) (mac : str) (id : Z).

(** The strict decoder raises nothing but [UnicodeDecodeError]. *)
Lemma utf8_decode_error (b : bytes) e :
  utf8_decode b = Err e -> e = UnicodeDecodeError.
Proof.
  remember (length b) as n eqn:Hn. revert b Hn e.
  induction n as [n IH] using lt_wf_ind. intros b Hn e.
  assert (forall r : bytes, (length r < n)%nat -> forall (f : str -> str),
    (s ← utf8_decode r; Ok (f s)) = Err e -> e = UnicodeDecodeError) as Hrec.
  { intros r Hr f Hs. destruct (utf8_decode r) as [s|e'] eqn:Hd; [done|].
    simpl in Hs. injection Hs as <-. by eapply IH. }
  destruct b as [|b0 r0]; [done|]. simpl in Hn. cbn [utf8_decode].
  repeat case_match; subst; simpl in *; try congruence;
    match goal with
    | |- (s ← utf8_decode ?r; Ok (?c :: s)) = Err e -> _ =>
        apply (Hrec r ltac:(simpl; lia) (cons c))
    end.
Qed.

Lemma QTColor_of_value_Ok v c :
  QTColor.of_value v = Ok c -> QTColor.value c = v.
Proof.
  destruct v as [|p|p]; try done.
  do 4 (try destruct p as [p|p|]; try done); simpl; by intros [= <-].
Qed.

Lemma QTColor_of_value_Err v :
  ~ (1 <= v <= 6) -> QTColor.of_value v = Err ValueError.
Proof.
  destruct v as [|p|p]; try done.
  do 4 (try destruct p as [p|p|]; try done); simpl; lia.
Qed.

Lemma QTMode_of_value_Ok v m :
  QTMode.of_value v = Ok m -> QTMode.value m = v.
Proof.
  destruct v as [|p|p]; try (simpl; by intros [= <-]); try done.
  do 4 (try destruct p as [p|p|]; try done); simpl; by intros [= <-].
Qed.

Lemma QTMode_of_value_Err v :
  ~ (0 <= v <= 8) -> QTMode.of_value v = Err ValueError.
Proof.
  destruct v as [|p|p]; try done; try lia.
  do 4 (try destruct p as [p|p|]; try done); simpl; lia.
Qed.

Lemma QTColor_of_value_error v e :
  QTColor.of_value v = Err e -> e = ValueError.
Proof. unfold QTColor.of_value. repeat case_match; congruence. Qed.

Lemma QTMode_of_value_error v e :
  QTMode.of_value v = Err e -> e = ValueError.
Proof. unfold QTMode.of_value. repeat case_match; congruence. Qed.

Lemma struct_unpack_error (b : bytes) e :
  struct_unpack b = Err e -> e = StructError.
Proof. unfold struct_unpack. repeat case_match; congruence. Qed.

Lemma struct_unpack_size (b : bytes) :
  length b <> 6%nat -> struct_unpack b = Err StructError.
Proof. do 7 (destruct b as [|? b]; try done). Qed.

(** With its three attributes present, [from_ble_device] is the parser
    followed by the decoder. *)
Lemma from_ble_device_Some mac id (name : str) (raw_data : bytes) :
  from_ble_device {| BLEDevice.id := Some id; BLEDevice.mac := mac;
                     BLEDevice.name := Some name;
                     BLEDevice.raw_data := Some raw_data |}
  = parse_fields raw_data ≫= fun fields => decode_fields fields mac id.
Proof. reflexivity. Qed.

(** An exception of the parser leaves [from_ble_device] as it is. *)
Lemma from_ble_device_IndexError mac id (name : str) (raw_data : bytes) fs :
  iter_fields raw_data = (fs, Raised IndexError) ->
  from_ble_device {| BLEDevice.id := Some id; BLEDevice.mac := mac;
                     BLEDevice.name := Some name;
                     BLEDevice.raw_data := Some raw_data |}
  = Err IndexError.
Proof.
  intros H. rewrite from_ble_device_Some. unfold parse_fields. by rewrite H.
Qed.

Example from_ble_device_sample :
  from_ble_device {| BLEDevice.id := Some 7; BLEDevice.mac := Sample.mac;
                     BLEDevice.name := Some [81; 84; 45; 49];
                     BLEDevice.raw_data := Some (encode Sample.records) |}
  = Ok {| QTDevice.ble_device_id := 7;
          QTDevice.name := [81; 84; 45; 49];
          QTDevice.mac := Sample.mac;
          QTDevice.color := QTColor.LIGHTGREEN;
          QTDevice.mode := QTMode.USER;
          QTDevice.armed := true;
          QTDevice.snowmode := true;
          QTDevice.vbat := 12 |}.
Proof. reflexivity. Qed.

End Decoder.

(** * The claims *)

(** C2: a buffer built from records [(type_i, value_i)] with
    [len(value_i) <= 254], each laid out as the length byte
    [len(value_i) + 1], the type byte and the value bytes, is parsed back
    into exactly the pairs [(type_i, value_i)], in order, and the
    generator then returns. *)
Theorem iter_fields_encode_roundtrip (rs : list (Byte.byte * bytes)) :
  Forall fits rs ->
  iter_fields (encode rs) = (map pair_of rs, Returned).
Proof.
  intros Hrs.
  pose proof (iter_fields_encode rs [] 1 [] Returned Hrs) as H.
  rewrite !app_nil_r in H. apply H; [|done].
  cbn [run_gen]. by rewrite iter_step_end.
Qed.

Lemma iter_fields_encode_roundtrip_witness :
  Forall fits Sample.records /\
  iter_fields (encode Sample.records)
  = ([(9, Sample.name); (255, Sample.payload_user); (1, [])], Returned).
Proof.
  assert (Forall fits Sample.records) as H.
  { repeat constructor; unfold fits; simpl; lia. }
  split; [exact H|]. exact (iter_fields_encode_roundtrip Sample.records H).
Defined.

(** C3 as stated fails: the buffer [03 09 41] declares two value bytes and
    holds one; the parser yields the pair [(9, b"A")] with the clipped
    value and returns normally. *)
Lemma truncated_value_is_yielded :
  overruns Sample.truncated 0 /\
  iter_fields Sample.truncated = ([(9, [Byte.x41])], Returned).
Proof.
  split; [|reflexivity].
  exists Byte.x03. repeat split; [done|]. simpl. lia.
Qed.

(** C3, amended: after any whole records, any non-zero length byte [l]
    that is the last byte of the buffer (a length of 1 included) makes
    the parser raise [IndexError], the pairs before it having been
    yielded; a length byte [l'] and a type byte followed by fewer value
    bytes than [l'] declares make it yield the pair with the value bytes
    that are there, and return. *)
Theorem iter_fields_overrun (rs : list (Byte.byte * bytes))
    (l l' t : Byte.byte) (v : bytes) :
  Forall fits rs ->
  byte_val l <> 0 ->
  (length v + 1 < Z.to_nat (byte_val l'))%nat ->
  iter_fields (encode rs ++ [l]) = (map pair_of rs, Raised IndexError) /\
  iter_fields (encode rs ++ l' :: t :: v)
  = (map pair_of rs ++ [(byte_val t, v)], Returned).
Proof.
  intros Hrs Hl Hv. split.
  - rewrite <- (app_nil_r (map pair_of rs)).
    apply (iter_fields_encode rs [l] 1); [done| |done].
    cbn [run_gen]. by rewrite iter_step_no_type.
  - apply (iter_fields_encode rs (l' :: t :: v) 2); [done| |done].
    destruct (iter_step_short (encode rs) l' t v Hv) as (offset' & Hs & Hlen).
    cbn [run_gen]. rewrite Hs, iter_step_past; [done|lia].
Qed.

Lemma iter_fields_overrun_witness :
  iter_fields (encode Sample.records ++ [Byte.x01])
  = (map pair_of Sample.records, Raised IndexError) /\
  iter_fields (encode Sample.records ++ Sample.truncated)
  = (map pair_of Sample.records ++ [(9, [Byte.x41])], Returned).
Proof.
  apply (iter_fields_overrun Sample.records Byte.x01 Byte.x03 Byte.x09
           [Byte.x41]).
  - repeat constructor; unfold fits; simpl; lia.
  - done.
  - vm_compute. lia.
Defined.

(** C8: the empty buffer yields nothing; a zero length byte at the
    parser's offset ends the iteration there, whatever bytes follow it:
    at the first byte, after any whole records, or at any offset the
    parser is resumed from; a single zero byte yields nothing. *)
Theorem iter_fields_zero_length (rs : list (Byte.byte * bytes))
    (pre rest : bytes) (n : nat) :
  Forall fits rs ->
  iter_fields [] = ([], Returned) /\
  iter_fields [Byte.x00] = ([], Returned) /\
  iter_fields (Byte.x00 :: rest) = ([], Returned) /\
  iter_fields (encode rs ++ Byte.x00 :: rest) = (map pair_of rs, Returned) /\
  run_gen (S n) (pre ++ Byte.x00 :: rest) (length pre) = ([], Returned).
Proof.
  intros Hrs.
  assert (forall pre', run_gen 1 (pre' ++ Byte.x00 :: rest) (length pre')
                       = ([], Returned)) as Hstop.
  { intros pre'. cbn [run_gen]. by rewrite iter_step_zero. }
  split; [reflexivity|]. split; [reflexivity|]. split; [|split].
  - by apply (iter_fields_run 1); [apply (Hstop [])|].
  - rewrite <- (app_nil_r (map pair_of rs)).
    by apply (iter_fields_encode rs _ 1); [|apply Hstop|].
  - cbn [run_gen]. by rewrite iter_step_zero.
Qed.

Lemma iter_fields_zero_length_witness :
  iter_fields [] = ([], Returned) /\
  iter_fields [Byte.x00] = ([], Returned) /\
  iter_fields [Byte.x00; Byte.x02; Byte.x09; Byte.x41] = ([], Returned) /\
  iter_fields (encode Sample.records ++ [Byte.x00; Byte.x02; Byte.x09; Byte.x41])
  = (map pair_of Sample.records, Returned) /\
  run_gen 1 ([Byte.xff] ++ [Byte.x00; Byte.x02; Byte.x09; Byte.x41]) 1
  = ([], Returned).
Proof.
  apply (iter_fields_zero_length Sample.records [Byte.xff]
           [Byte.x02; Byte.x09; Byte.x41] 0).
  repeat constructor; unfold fits; simpl; lia.
Defined.

(** C9: when the parser's output holds a pair [(k, v)] and no later pair
    with type code [k] (whatever comes before it), the mapping built from
    that output associates [k] with [v]: the last occurrence wins. *)
Theorem parse_fields_last_wins (data : bytes) (fields : gmap Z bytes)
    (fs1 fs2 : list field) (k : Z) (v : bytes) :
  parse_fields data = Ok fields ->
  (iter_fields data).1 = fs1 ++ (k, v) :: fs2 ->
  k ∉ fs2.*1 ->
  fields !! k = Some v.
Proof.
  unfold parse_fields. intros Hp Hfs Hk.
  destruct (iter_fields data) as [fs st]. simpl in Hfs. subst fs.
  destruct st; simplify_eq; by apply collect_last.
Qed.

Lemma parse_fields_last_wins_witness :
  exists fields,
    parse_fields Sample.renamed = Ok fields /\
    fields !! 9 = Some [Byte.x51; Byte.x54].
Proof.
  eexists. split; [reflexivity|].
  apply (parse_fields_last_wins Sample.renamed _
           [(9, Sample.name); (255, Sample.payload_user)] [] 9
           [Byte.x51; Byte.x54]).
  - reflexivity.
  - reflexivity.
  - simpl. apply not_elem_of_nil.
Defined.

(** C10: the parser terminates on every buffer.  Each trip through the
    loop that yields has read a length byte of at least 1 and moves the
    offset forward by at least 2; the loop body is entered at most
    [len(data) / 2 + 1] times; and after that many resumptions the
    generator has finished. *)
Theorem iter_fields_terminates (data : bytes) (offset n : nat) :
  match iter_step data offset with
  | Yield _ offset' =>
      (exists l, data !! offset = Some l /\ 1 <= byte_val l /\
                 offset' = (offset + Z.to_nat (byte_val l) + 1)%nat) /\
      (offset + 2 <= offset')%nat
  | _ => True
  end /\
  (iterations n data 0 <= length data / 2 + 1)%nat /\
  finished (run_gen (length data / 2 + 1) data 0).2.
Proof.
  repeat split.
  - destruct (iter_step data offset) as [| | e|f offset'] eqn:Hs; try done.
    split; [|by apply iter_step_advance in Hs as [? _]].
    apply iter_step_Yield in Hs as (l & t & Hl & _ & HL & _ & ->).
    exists l. repeat split; [done|lia].
  - pose proof (iterations_bound n data 0) as H.
    by rewrite Nat.sub_0_r in H.
  - apply run_gen_finishes. rewrite Nat.sub_0_r. lia.
Qed.

(** C1 as stated fails: with the valid name [b"QT-1"] the payload
    [40 80 C0 C0 40 C8] is not decoded into a record; [QTColor] raises
    [ValueError]. *)
Lemma sample_payload_rejected :
  utf8_decode Sample.name = Ok [81; 84; 45; 49] /\
  decode_fields {[ 9 := Sample.name; 255 := Sample.payload ]} Sample.mac 1
  = Err ValueError.
Proof. split; reflexivity. Qed.

(** C1, amended: with any valid name field and MAC, decoding the payload
    [40 80 C0 C0 40 C8] raises [ValueError]: its color bits assemble to 9,
    which is no member of [QTColor] (and its mode bits to 7, BOOTLOAD).
    The record with color LIGHTGREEN (3), mode USER (3), armed and snow
    mode set and a battery voltage of 12.0 is what the payload
    [C0 00 C0 80 40 C8] decodes to. *)
Theorem sample_payload_decoding (fields : gmap Z bytes) (mac : str) (id : Z)
    (nm : bytes) (name : str) :
  fields !! 9 = Some nm ->
  utf8_decode nm = Ok name ->
  color_bits 0x40 0x80 = 9 /\
  mode_bits 0xC0 0xC0 = 7 /\
  decode_fields (<[255 := Sample.payload]> fields) mac id = Err ValueError /\
  decode_fields (<[255 := Sample.payload_user]> fields) mac id
  = Ok {| QTDevice.ble_device_id := id;
          QTDevice.name := name;
          QTDevice.mac := mac;
          QTDevice.color := QTColor.LIGHTGREEN;
          QTDevice.mode := QTMode.USER;
          QTDevice.armed := true;
          QTDevice.snowmode := true;
          QTDevice.vbat := 12 |}.
Proof.
  intros Hnm Hname. unfold decode_fields.
  rewrite !lookup_insert_eq, !lookup_insert_ne, Hnm by done.
  simpl. rewrite Hname. by repeat split.
Qed.

Lemma sample_payload_decoding_witness :
  decode_fields (<[255 := Sample.payload]> {[ 9 := Sample.name ]}) Sample.mac 7
  = Err ValueError /\
  decode_fields (<[255 := Sample.payload_user]> {[ 9 := Sample.name ]})
    Sample.mac 7
  = Ok {| QTDevice.ble_device_id := 7;
          QTDevice.name := [81; 84; 45; 49];
          QTDevice.mac := Sample.mac;
          QTDevice.color := QTColor.LIGHTGREEN;
          QTDevice.mode := QTMode.USER;
          QTDevice.armed := true;
          QTDevice.snowmode := true;
          QTDevice.vbat := 12 |}.
Proof.
  apply (sample_payload_decoding {[ 9 := Sample.name ]} Sample.mac 7
           Sample.name [81; 84; 45; 49]); reflexivity.
Defined.

(** C4 as stated fails: a mapping without the name field (type code 9) and
    with a well-formed manufacturer payload is decoded, into a record whose
    name is the empty text. *)
Lemma missing_name_defaults :
  ({[ 255 := Sample.payload_user ]} : gmap Z bytes) !! 9 = None /\
  decode_fields {[ 255 := Sample.payload_user ]} Sample.mac 1
  = Ok {| QTDevice.ble_device_id := 1;
          QTDevice.name := [];
          QTDevice.mac := Sample.mac;
          QTDevice.color := QTColor.LIGHTGREEN;
          QTDevice.mode := QTMode.USER;
          QTDevice.armed := true;
          QTDevice.snowmode := true;
          QTDevice.vbat := 12 |}.
Proof. split; reflexivity. Qed.

(** C4, amended: for a mapping without the name field the decoder takes
    the empty byte string in its place, so it behaves as on the mapping
    with an empty name field: a record it produces has the empty name, and
    when it fails the error is that of the manufacturer data
    ([struct.error], or [ValueError] from an enumeration), never one
    about the missing name. *)
Theorem decode_fields_missing_name (fields : gmap Z bytes) (mac : str) (id : Z) :
  fields !! 9 = None ->
  decode_fields fields mac id = decode_fields (<[9 := []]> fields) mac id /\
  match decode_fields fields mac id with
  | Ok r => QTDevice.name r = []
  | Err e => e = StructError \/ e = ValueError
  end.
Proof.
  intros H9. unfold decode_fields.
  rewrite lookup_insert_eq, lookup_insert_ne, H9 by done. simpl.
  split; [done|].
  destruct (struct_unpack _) as [[[[[[u0 u1] u2] u3] u4] u5]|e] eqn:Hu; simpl.
  - destruct (QTColor.of_value _) as [c|e] eqn:Hc; simpl.
    + destruct (QTMode.of_value _) as [m|e] eqn:Hm; simpl; [done|].
      right. by eapply QTMode_of_value_error.
    + right. by eapply QTColor_of_value_error.
  - left. by eapply struct_unpack_error.
Qed.

Lemma decode_fields_missing_name_witness :
  decode_fields {[ 255 := Sample.payload_user ]} Sample.mac 1
  = decode_fields (<[9 := []]> {[ 255 := Sample.payload_user ]}) Sample.mac 1 /\
  match decode_fields {[ 255 := Sample.payload_user ]} Sample.mac 1 with
  | Ok r => QTDevice.name r = []
  | Err e => e = StructError \/ e = ValueError
  end.
Proof.
  apply (decode_fields_missing_name {[ 255 := Sample.payload_user ]}).
  reflexivity.
Defined.

(** C5 as stated fails on the error kind: with a one-byte manufacturer
    field and a name field that is not UTF-8 the decoder fails with
    [UnicodeDecodeError], not with the size error. *)
Lemma short_payload_bad_name :
  ({[ 9 := [Byte.xff]; 255 := [Byte.x00] ]} : gmap Z bytes) !! 255
  = Some [Byte.x00] /\
  decode_fields {[ 9 := [Byte.xff]; 255 := [Byte.x00] ]} Sample.mac 1
  = Err UnicodeDecodeError.
Proof. split; reflexivity. Qed.

(** C5, amended: for a mapping whose manufacturer-data field (type code
    255) is absent or not exactly 6 bytes long the decoder fails and
    produces no record.  The name is decoded first: when the name field is
    absent or valid UTF-8 the failure is the size error ([struct.error]),
    also for an absent manufacturer field (the empty default is unpacked);
    when the name bytes are not UTF-8 it is [UnicodeDecodeError].  So
    decoding succeeds only on a manufacturer value of exactly 6 bytes. *)
Theorem decode_fields_size (fields : gmap Z bytes) (mac : str) (id : Z) :
  fields !! 255 = None \/
    (exists md, fields !! 255 = Some md /\ length md <> 6%nat) ->
  decode_fields fields mac id
  = match utf8_decode (default [] (fields !! 9)) with
    | Ok _ => Err StructError
    | Err _ => Err UnicodeDecodeError
    end /\
  forall r, decode_fields fields mac id <> Ok r.
Proof.
  intros Hmd.
  assert (struct_unpack (default [] (fields !! 255)) = Err StructError) as Hu.
  { apply struct_unpack_size. destruct Hmd as [->|(md & -> & Hlen)]; done. }
  assert (decode_fields fields mac id
          = match utf8_decode (default [] (fields !! 9)) with
            | Ok _ => Err StructError
            | Err _ => Err UnicodeDecodeError
            end) as Hd.
  { unfold decode_fields.
    destruct (utf8_decode _) as [name|e] eqn:Hn; simpl.
    - by rewrite Hu.
    - by rewrite (utf8_decode_error _ _ Hn). }
  split; [done|]. intros r. rewrite Hd. by destruct (utf8_decode _).
Qed.

Lemma decode_fields_size_witness :
  decode_fields {[ 9 := Sample.name; 255 := [Byte.x40; Byte.x80] ]} Sample.mac 1
  = Err StructError /\
  forall r,
    decode_fields {[ 9 := Sample.name; 255 := [Byte.x40; Byte.x80] ]}
      Sample.mac 1 <> Ok r.
Proof.
  refine (decode_fields_size
            {[ 9 := Sample.name; 255 := [Byte.x40; Byte.x80] ]} Sample.mac 1 _).
  right. exists [Byte.x40; Byte.x80]. split; [reflexivity|]. simpl. lia.
Defined.

(** C6: when a mapping whose manufacturer data are the six bytes
    [b0 .. b5] is decoded into a record, the record's color value is
    [((b0 & 0xC0) >> 6) | ((b1 & 0xC0) >> 4)], its mode value is
    [((b2 & 0xC0) >> 6) | ((b3 & 0x40) >> 4)], armed is [(b3 & 0x80) != 0],
    snow mode is [(b4 & 0x40) != 0] and the battery voltage is
    [b5 * 60 / 1000]. *)
Theorem decode_fields_bits (fields : gmap Z bytes) (mac : str) (id : Z)
    (b0 b1 b2 b3 b4 b5 : Byte.byte) (r : QTDevice.t) :
  fields !! 255 = Some [b0; b1; b2; b3; b4; b5] ->
  decode_fields fields mac id = Ok r ->
  QTColor.value (QTDevice.color r)
  = Z.lor (Z.shiftr (Z.land (byte_val b0) 0xC0) 6)
          (Z.shiftr (Z.land (byte_val b1) 0xC0) 4) /\
  QTMode.value (QTDevice.mode r)
  = Z.lor (Z.shiftr (Z.land (byte_val b2) 0xC0) 6)
          (Z.shiftr (Z.land (byte_val b3) 0x40) 4) /\
  QTDevice.armed r = negb (Z.land (byte_val b3) 0x80 =? 0) /\
  QTDevice.snowmode r = negb (Z.land (byte_val b4) 0x40 =? 0) /\
  QTDevice.vbat r
  = (float_of_Z (byte_val b5 * 60) / float_of_Z 1000)%float.
Proof.
  intros Hmd. unfold decode_fields. rewrite Hmd.
  destruct (utf8_decode _) as [name|]; [|done]. simpl.
  destruct (QTColor.of_value _) as [c|] eqn:Hc; [|done]. simpl.
  destruct (QTMode.of_value _) as [m|] eqn:Hm; [|done]. simpl.
  intros [= <-]. simpl.
  apply QTColor_of_value_Ok in Hc. apply QTMode_of_value_Ok in Hm.
  by rewrite Hc, Hm.
Qed.

Lemma decode_fields_bits_witness :
  QTColor.value QTColor.LIGHTGREEN = 3 /\
  QTMode.value QTMode.USER = 3 /\
  true = negb (Z.land 0x80 0x80 =? 0) /\
  true = negb (Z.land 0x40 0x40 =? 0) /\
  12%float = (float_of_Z (200 * 60) / float_of_Z 1000)%float.
Proof.
  apply (decode_fields_bits
           {[ 9 := Sample.name; 255 := Sample.payload_user ]} Sample.mac 1
           Byte.xc0 Byte.x00 Byte.xc0 Byte.x80 Byte.x40 Byte.xc8
           {| QTDevice.ble_device_id := 1;
              QTDevice.name := [81; 84; 45; 49];
              QTDevice.mac := Sample.mac;
              QTDevice.color := QTColor.LIGHTGREEN;
              QTDevice.mode := QTMode.USER;
              QTDevice.armed := true;
              QTDevice.snowmode := true;
              QTDevice.vbat := 12 |}); reflexivity.
Defined.

(** C7 as stated fails on the error kind: with color bits 0 and a name
    field that is not UTF-8 the decoder fails with [UnicodeDecodeError],
    raised before the payload is looked at. *)
Lemma unmapped_color_bad_name :
  color_bits 0 0 = 0 /\
  decode_fields {[ 9 := [Byte.xff]; 255 := Sample.payload_nocolor ]}
    Sample.mac 1
  = Err UnicodeDecodeError.
Proof. split; reflexivity. Qed.

(** C7, amended: for a mapping whose manufacturer data are six bytes with
    color bits outside 1..6 or mode bits outside 0..8 the decoder fails
    and produces no record, so no default member is substituted.  The
    failure is the range error ([ValueError]) when the name field is
    absent or valid UTF-8; when the name bytes are not UTF-8 it is
    [UnicodeDecodeError], raised first. *)
Theorem decode_fields_range (fields : gmap Z bytes) (mac : str) (id : Z)
    (b0 b1 b2 b3 b4 b5 : Byte.byte) :
  fields !! 255 = Some [b0; b1; b2; b3; b4; b5] ->
  ~ (1 <= color_bits (byte_val b0) (byte_val b1) <= 6) \/
  ~ (0 <= mode_bits (byte_val b2) (byte_val b3) <= 8) ->
  decode_fields fields mac id
  = match utf8_decode (default [] (fields !! 9)) with
    | Ok _ => Err ValueError
    | Err _ => Err UnicodeDecodeError
    end /\
  forall r, decode_fields fields mac id <> Ok r.
Proof.
  intros Hmd Hbad.
  assert (decode_fields fields mac id
          = match utf8_decode (default [] (fields !! 9)) with
            | Ok _ => Err ValueError
            | Err _ => Err UnicodeDecodeError
            end) as Hd.
  { unfold decode_fields. rewrite Hmd.
    destruct (utf8_decode _) as [name|e] eqn:Hn; simpl.
    - destruct (QTColor.of_value _) as [c|e] eqn:Hc; simpl.
      + destruct Hbad as [Hbad|Hbad].
        * by rewrite (QTColor_of_value_Err _ Hbad) in Hc.
        * by rewrite (QTMode_of_value_Err _ Hbad).
      + by rewrite (QTColor_of_value_error _ _ Hc).
    - by rewrite (utf8_decode_error _ _ Hn). }
  split; [done|]. intros r. rewrite Hd. by destruct (utf8_decode _).
Qed.

Lemma decode_fields_range_witness :
  decode_fields {[ 9 := Sample.name; 255 := Sample.payload_nocolor ]}
    Sample.mac 1
  = Err ValueError /\
  forall r,
    decode_fields {[ 9 := Sample.name; 255 := Sample.payload_nocolor ]}
      Sample.mac 1 <> Ok r.
Proof.
  refine (decode_fields_range
            {[ 9 := Sample.name; 255 := Sample.payload_nocolor ]} Sample.mac 1
            Byte.x00 Byte.x00 Byte.xc0 Byte.x80 Byte.x40 Byte.xc8 _ _).
  - reflexivity.
  - left. vm_compute. intros [H _]. by apply H.
Defined.

(** * Further properties of the field parser *)

Section ParserFurther.

Implicit Types (data pre rest : bytes) (offset n : nat).

(** The loop does not look behind its offset: with [pre] put in front of
    the buffer, a step from the shifted offset is the same step. *)
Lemma iter_step_shift pre data offset :
  iter_step (pre ++ data) (length pre + offset)
  = match iter_step data offset with
    | Yield f offset' => Yield f (length pre + offset')
    | s => s
    end.
Proof.
  unfold iter_step. rewrite length_app.
  replace (length pre + offset <? length pre + length data)%nat
    with (offset <? length data)%nat.
  2:{ destruct (Nat.ltb_spec offset (length data));
      symmetry; [apply Nat.ltb_lt|apply Nat.ltb_ge]; lia. }
  destruct (offset <? length data)%nat; [|done].
  rewrite lookup_app_r by lia.
  replace (length pre + offset - length pre)%nat with offset by lia.
  destruct (data !! offset) as [l|]; [|done].
  destruct (Z.to_nat (byte_val l) =? 0)%nat; [done|].
  rewrite lookup_app_r by lia.
  replace (length pre + offset + 1 - length pre)%nat with (offset + 1)%nat by lia.
  destruct (data !! (offset + 1)%nat) as [t|]; [|done].
  f_equal; [|lia]. f_equal. unfold slice.
  rewrite drop_app_ge by lia. f_equal; [lia|]. f_equal. lia.
Qed.

Lemma run_gen_shift n pre data offset :
  run_gen n (pre ++ data) (length pre + offset)
  = ((run_gen n data offset).1, shift_state (length pre) (run_gen n data offset).2).
Proof.
  revert offset. induction n as [|n IH]; intros offset; [done|].
  cbn [run_gen]. rewrite iter_step_shift.
  destruct (iter_step data offset) as [| | e|f offset']; try done.
  rewrite IH. by destruct (run_gen n data offset').
Qed.

(** Whole records in front of a buffer are yielded, and the parser then
    goes on as it does on the buffer alone. *)
Lemma iter_fields_app rs rest :
  Forall fits rs ->
  iter_fields (encode rs ++ rest)
  = (map pair_of rs ++ (iter_fields rest).1, (iter_fields rest).2).
Proof.
  intros Hrs. pose proof (iter_fields_finished rest) as Hfin.
  apply (iter_fields_encode rs rest (S (length rest / 2))); [done| |done].
  pose proof (run_gen_shift (S (length rest / 2)) (encode rs) rest 0) as H.
  rewrite Nat.add_0_r in H. rewrite H. fold (iter_fields rest).
  destruct (iter_fields rest) as [fs st]. by destruct st.
Qed.

Lemma byte_val_range (b : Byte.byte) : 0 <= byte_val b <= 255.
Proof. unfold byte_val. pose proof (Byte.to_N_bounded b). lia. Qed.

Lemma length_byte_of_val (l : Byte.byte) :
  length_byte (Z.to_nat (byte_val l)) = l.
Proof.
  unfold length_byte, byte_val.
  replace (N.of_nat (Z.to_nat (Z.of_N (Byte.to_N l)))) with (Byte.to_N l) by lia.
  by rewrite Byte.of_to_N.
Qed.

Lemma byte_val_zero (l : Byte.byte) : byte_val l = 0 -> l = Byte.x00.
Proof.
  intros H. rewrite <- (length_byte_of_val l), H. reflexivity.
Qed.

Lemma tail_shape_iter_fields tl fs st :
  tail_shape tl fs st -> iter_fields tl = (fs, st).
Proof.
  intros [|rest|l Hl|l t v Hv].
  - reflexivity.
  - apply (iter_fields_run 1); [|done].
    pose proof (iter_step_zero [] rest) as Hs. simpl in Hs.
    cbn [run_gen]. by rewrite Hs.
  - apply (iter_fields_run 1); [|done].
    pose proof (iter_step_no_type [] l Hl) as Hs. simpl in Hs.
    cbn [run_gen]. by rewrite Hs.
  - apply (iter_fields_run 2); [|done].
    destruct (iter_step_short [] l t v Hv) as (offset' & Hs & Hlen).
    simpl in Hs, Hlen. cbn [run_gen]. rewrite Hs, iter_step_past; [done|].
    simpl. lia.
Qed.

(** Every buffer is whole records followed by one of the four tails. *)
Lemma buffer_shape data :
  exists rs tl fs st,
    Forall fits rs /\ data = encode rs ++ tl /\ tail_shape tl fs st.
Proof.
  remember (length data) as n eqn:Hn. revert data Hn.
  induction n as [n IH] using lt_wf_ind. intros data Hn.
  destruct data as [|l d1].
  { exists [], [], [], Returned. repeat split; [done|constructor]. }
  destruct (decide (byte_val l = 0)) as [Hz|Hnz].
  { apply byte_val_zero in Hz as ->.
    exists [], (Byte.x00 :: d1), [], Returned.
    repeat split; [done|constructor]. }
  destruct d1 as [|t d2].
  { exists [], [l], [], (Raised IndexError).
    repeat split; [done|by constructor]. }
  destruct (decide (length d2 + 1 < Z.to_nat (byte_val l))%nat) as [Hs|Hs].
  { exists [], (l :: t :: d2), [(byte_val t, d2)], Returned.
    repeat split; [done|by constructor]. }
  pose proof (byte_val_range l) as Hl.
  set (L := Z.to_nat (byte_val l)) in *.
  assert (length (take (L - 1) d2) = (L - 1)%nat) as Hv
    by (rewrite length_take; lia).
  destruct (IH (length (drop (L - 1) d2))
              ltac:(subst n; simpl; rewrite length_drop; lia)
              (drop (L - 1) d2) eq_refl)
    as (rs & tl & fs & st & Hrs & Hd & Htl).
  exists ((t, take (L - 1) d2) :: rs), tl, fs, st.
  split; [|split; [|done]].
  - constructor; [|done]. unfold fits. simpl. lia.
  - change (encode ((t, take (L - 1) d2) :: rs))
      with (encode_record (t, take (L - 1) d2) ++ encode rs).
    unfold encode_record. simpl. rewrite Hv.
    replace (L - 1 + 1)%nat with L by lia.
    unfold L at 1. rewrite length_byte_of_val. do 2 f_equal.
    rewrite <- app_assoc, <- Hd. by rewrite take_drop.
Qed.

(** What the parser does on a buffer, by its shape. *)
Lemma iter_fields_shape rs tl fs st :
  Forall fits rs -> tail_shape tl fs st ->
  iter_fields (encode rs ++ tl) = (map pair_of rs ++ fs, st).
Proof.
  intros Hrs Htl. rewrite iter_fields_app by done.
  by rewrite (tail_shape_iter_fields _ _ _ Htl).
Qed.

Lemma length_encode rs :
  length (encode rs) = sum_list_with footprint (map pair_of rs).
Proof.
  induction rs as [|[t v] rs IH]; [done|].
  change (encode ((t, v) :: rs)) with (encode_record (t, v) ++ encode rs).
  rewrite length_app, IH. unfold encode_record, footprint. simpl. lia.
Qed.

Lemma footprint_count (fs : list field) :
  (2 * length fs <= sum_list_with footprint fs)%nat.
Proof. induction fs as [|f fs IH]; simpl; unfold footprint in *; lia. Qed.

Lemma iter_fields_bounds data (k : Z) (v : bytes) :
  (k, v) ∈ (iter_fields data).1 ->
  0 <= k <= 255 /\ (length v <= 254)%nat.
Proof.
  destruct (buffer_shape data) as (rs & tl & fs & st & Hrs & -> & Htl).
  rewrite (iter_fields_shape rs tl fs st Hrs Htl). simpl.
  rewrite elem_of_app. intros [Hin|Hin].
  - apply list_elem_of_fmap in Hin as ([t v'] & [= -> ->] & Hin).
    rewrite Forall_forall in Hrs. apply Hrs in Hin.
    split; [apply byte_val_range|exact Hin].
  - destruct Htl as [|rest|l Hl|l t v' Hv];
      try by apply elem_of_nil in Hin.
    apply list_elem_of_singleton in Hin as [= -> ->].
    pose proof (byte_val_range l). split; [apply byte_val_range|lia].
Qed.

Lemma iter_fields_raised data e :
  (iter_fields data).2 = Raised e ->
  e = IndexError /\
  exists rs l, Forall fits rs /\ byte_val l <> 0 /\ data = encode rs ++ [l].
Proof.
  destruct (buffer_shape data) as (rs & tl & fs & st & Hrs & -> & Htl).
  rewrite (iter_fields_shape rs tl fs st Hrs Htl). simpl. intros ->.
  inversion Htl; subst. split; [done|]. by exists rs, l.
Qed.

Lemma parse_fields_Err data e :
  parse_fields data = Err e <-> (iter_fields data).2 = Raised e.
Proof.
  unfold parse_fields. destruct (iter_fields data) as [fs st]. simpl.
  destruct st; split; congruence.
Qed.

End ParserFurther.

(** X1: whole records put in front of any buffer are yielded first, and
    the parser then goes on exactly as it does on that buffer alone: the
    same further pairs, the same way of ending. *)
Theorem iter_fields_records_then (rs : list (Byte.byte * bytes)) (rest : bytes) :
  Forall fits rs ->
  iter_fields (encode rs ++ rest)
  = (map pair_of rs ++ (iter_fields rest).1, (iter_fields rest).2).
Proof. apply iter_fields_app. Qed.

Lemma iter_fields_records_then_witness :
  iter_fields (encode Sample.records ++ [Byte.x02; Byte.x0a; Byte.x04; Byte.x07])
  = (map pair_of Sample.records ++ [(10, [Byte.x04])], Raised IndexError).
Proof.
  refine (iter_fields_records_then Sample.records
            [Byte.x02; Byte.x0a; Byte.x04; Byte.x07] _).
  repeat constructor; unfold fits; simpl; lia.
Defined.

(** X2: every buffer is a run of whole records followed by one of four
    tails (nothing; a zero length byte and anything; a lone non-zero
    length byte; a length byte, a type byte and fewer value bytes than
    declared), and the parser yields the pairs of the whole records, then
    what the tail gives: nothing and a normal end, nothing and a normal
    end, nothing and [IndexError], or the clipped pair and a normal end. *)
Theorem iter_fields_classified (data : bytes) :
  exists rs tl fs st,
    Forall fits rs /\ data = encode rs ++ tl /\ tail_shape tl fs st /\
    iter_fields data = (map pair_of rs ++ fs, st).
Proof.
  destruct (buffer_shape data) as (rs & tl & fs & st & Hrs & -> & Htl).
  exists rs, tl, fs, st. repeat split; try done.
  by apply iter_fields_shape.
Qed.

(** X3: the parser raises exactly when the buffer is a run of whole
    records followed by a single non-zero length byte, and what it raises
    then is [IndexError]. *)
Theorem iter_fields_raises_iff (data : bytes) (e : exn) :
  (iter_fields data).2 = Raised e <->
  e = IndexError /\
  exists rs l, Forall fits rs /\ byte_val l <> 0 /\ data = encode rs ++ [l].
Proof.
  split.
  - apply iter_fields_raised.
  - intros (-> & rs & l & Hrs & Hl & ->).
    by rewrite (iter_fields_shape rs [l] [] (Raised IndexError) Hrs (tail_lone l Hl)).
Qed.

(** X4: the pairs the parser yields never account for more bytes than
    the buffer holds (each pair for its value bytes and two more), so
    there are at most [len(data) / 2] of them. *)
Theorem iter_fields_budget (data : bytes) :
  (sum_list_with footprint (iter_fields data).1 <= length data)%nat /\
  (length (iter_fields data).1 <= length data / 2)%nat.
Proof.
  assert (sum_list_with footprint (iter_fields data).1 <= length data)%nat as H.
  { destruct (buffer_shape data) as (rs & tl & fs & st & Hrs & -> & Htl).
    rewrite (iter_fields_shape rs tl fs st Hrs Htl). simpl.
    rewrite sum_list_with_app, length_app, length_encode.
    apply Nat.add_le_mono_l.
    destruct Htl; unfold footprint; simpl; lia. }
  split; [done|].
  pose proof (footprint_count (iter_fields data).1).
  apply Nat.div_le_lower_bound; lia.
Qed.

(** X5: every pair the parser yields has a type code in [0, 255] and a
    value of at most 254 bytes. *)
Theorem iter_fields_pair_bounds (data : bytes) (k : Z) (v : bytes) :
  (k, v) ∈ (iter_fields data).1 ->
  0 <= k <= 255 /\ (length v <= 254)%nat.
Proof. apply iter_fields_bounds. Qed.

Lemma iter_fields_pair_bounds_witness :
  0 <= 255 <= 255 /\ (length Sample.payload_user <= 254)%nat.
Proof.
  refine (iter_fields_pair_bounds (encode Sample.records) 255
            Sample.payload_user _).
  vm_compute. apply list_elem_of_further, list_elem_of_here.
Defined.

(** * Further properties of the mapping and of the decoder *)

Section DecoderFurther.

Implicit Types (fields : gmap Z bytes) (mac : str) (id : Z).

Lemma collect_lookup_None (fs : list field) (k : Z) :
  collect fs !! k = None <-> k ∉ fs.*1.
Proof.
  induction fs as [|f fs IH] using rev_ind.
  - split; [intros _; apply not_elem_of_nil|done].
  - rewrite collect_snoc, fmap_app, not_elem_of_app, lookup_insert_None, IH.
    simpl. rewrite not_elem_of_cons. split.
    + intros [? ?]. repeat split; [done|congruence|apply not_elem_of_nil].
    + intros [? [? _]]. split; [done|congruence].
Qed.

Lemma collect_lookup_Some (fs : list field) (k : Z) (v : bytes) :
  collect fs !! k = Some v -> (k, v) ∈ fs.
Proof.
  induction fs as [|[k' v'] fs IH] using rev_ind; [done|].
  rewrite collect_snoc, elem_of_app. simpl.
  destruct (decide (k' = k)) as [->|Hne].
  - rewrite lookup_insert_eq. intros [= ->]. right. apply list_elem_of_here.
  - rewrite lookup_insert_ne by done. intros H. left. by apply IH.
Qed.

(** The two top bits of a byte, and its bit 6 moved to bit 2. *)
Lemma top2_range (b : Byte.byte) :
  0 <= Z.shiftr (Z.land (byte_val b) 0xC0) 6 <= 3.
Proof. destruct b; vm_compute; split; discriminate. Qed.

Lemma bit6_cases (b : Byte.byte) :
  Z.shiftr (Z.land (byte_val b) 0x40) 4 = 0 \/
  Z.shiftr (Z.land (byte_val b) 0x40) 4 = 4.
Proof. destruct b; vm_compute; auto. Qed.

Lemma mode_bits_range (b2 b3 : Byte.byte) :
  0 <= mode_bits (byte_val b2) (byte_val b3) <= 7.
Proof.
  unfold mode_bits. pose proof (top2_range b2) as H2.
  assert (forall x y, 0 <= x <= 3 -> y = 0 \/ y = 4 -> 0 <= Z.lor x y <= 7) as H.
  { intros x y Hx [-> | ->];
      assert (x = 0 \/ x = 1 \/ x = 2 \/ x = 3) as [-> | [-> | [-> | ->]]] by lia;
      vm_compute; split; discriminate. }
  apply H; [done|apply bit6_cases].
Qed.

Lemma QTMode_of_value_some v :
  0 <= v <= 8 -> exists m, QTMode.of_value v = Ok m.
Proof.
  intros H.
  assert (v = 0 \/ v = 1 \/ v = 2 \/ v = 3 \/ v = 4 \/ v = 5 \/ v = 6
          \/ v = 7 \/ v = 8) as Hv by lia.
  repeat destruct Hv as [-> | Hv]; try subst v; by eexists.
Qed.

Lemma QTColor_of_value_some v :
  1 <= v <= 6 -> exists c, QTColor.of_value v = Ok c.
Proof.
  intros H.
  assert (v = 1 \/ v = 2 \/ v = 3 \/ v = 4 \/ v = 5 \/ v = 6) as Hv by lia.
  repeat destruct Hv as [-> | Hv]; try subst v; by eexists.
Qed.

Lemma struct_unpack_Ok (b : bytes) u :
  struct_unpack b = Ok u ->
  exists b0 b1 b2 b3 b4 b5,
    b = [b0; b1; b2; b3; b4; b5] /\
    u = (byte_val b0, byte_val b1, byte_val b2,
         byte_val b3, byte_val b4, byte_val b5).
Proof.
  do 7 (destruct b as [|? b]; try done). simpl. intros [= <-].
  by eexists _, _, _, _, _, _.
Qed.

(** What a successful decoding says about the mapping and the record. *)
Lemma decode_fields_Ok fields mac id r :
  decode_fields fields mac id = Ok r ->
  exists name b0 b1 b2 b3 b4 b5,
    utf8_decode (default [] (fields !! 9)) = Ok name /\
    fields !! 255 = Some [b0; b1; b2; b3; b4; b5] /\
    QTColor.of_value (color_bits (byte_val b0) (byte_val b1))
    = Ok (QTDevice.color r) /\
    QTMode.of_value (mode_bits (byte_val b2) (byte_val b3))
    = Ok (QTDevice.mode r) /\
    r = {| QTDevice.ble_device_id := id;
           QTDevice.name := name;
           QTDevice.mac := mac;
           QTDevice.color := QTDevice.color r;
           QTDevice.mode := QTDevice.mode r;
           QTDevice.armed := bool_of_int (Z.land (byte_val b3) 0x80);
           QTDevice.snowmode := bool_of_int (Z.land (byte_val b4) 0x40);
           QTDevice.vbat := truediv (byte_val b5 * 60) 1000 |}.
Proof.
  unfold decode_fields.
  destruct (utf8_decode _) as [name|] eqn:Hn; [|done]. simpl.
  destruct (struct_unpack _) as [u|] eqn:Hu; [|done].
  apply struct_unpack_Ok in Hu as (b0 & b1 & b2 & b3 & b4 & b5 & Hb & ->).
  simpl.
  destruct (QTColor.of_value _) as [c|] eqn:Hc; [|done]. simpl.
  destruct (QTMode.of_value _) as [m|] eqn:Hm; [|done]. simpl.
  intros [= <-]. exists name, b0, b1, b2, b3, b4, b5. simpl.
  repeat split; try done.
  destruct (fields !! 255) as [md|]; simpl in Hb; [by subst|done].
Qed.

Lemma utf8_decode_ascii (b : bytes) :
  Forall (fun c => byte_val c < 0x80) b -> utf8_decode b = Ok (map byte_val b).
Proof.
  induction 1 as [|c b Hc _ IH]; [done|].
  cbn [utf8_decode map].
  replace (byte_val c <? 0x80) with true by (symmetry; by apply Z.ltb_lt).
  by rewrite IH.
Qed.

Lemma decode_fields_Err fields mac id e :
  decode_fields fields mac id = Err e ->
  e = UnicodeDecodeError \/ e = StructError \/ e = ValueError.
Proof.
  unfold decode_fields.
  destruct (utf8_decode _) as [name|e1] eqn:Hn; simpl.
  2:{ intros [= <-]. left. by eapply utf8_decode_error. }
  destruct (struct_unpack _) as [[[[[[u0 u1] u2] u3] u4] u5]|e2] eqn:Hu; simpl.
  2:{ intros [= <-]. right. left. by eapply struct_unpack_error. }
  destruct (QTColor.of_value _) as [c|e3] eqn:Hc; simpl.
  2:{ intros [= <-]. right. right. by eapply QTColor_of_value_error. }
  destruct (QTMode.of_value _) as [m|e4] eqn:Hm; simpl; [done|].
  intros [= <-]. right. right. by eapply QTMode_of_value_error.
Qed.

(** The strict decoder gives at most one character per byte. *)
Lemma utf8_decode_length (b : bytes) (s : str) :
  utf8_decode b = Ok s -> (length s <= length b)%nat.
Proof.
  remember (length b) as n eqn:Hn. revert b Hn s.
  induction n as [n IH] using lt_wf_ind. intros b Hn s.
  assert (forall (r : bytes) (k : nat) c,
    (length r + k < n)%nat ->
    (s' ← utf8_decode r; Ok (c :: s')) = Ok s -> (length s <= length r + S k)%nat)
    as Hrec.
  { intros r k c Hr Hs. destruct (utf8_decode r) as [s'|] eqn:Hd; [|done].
    simpl in Hs. injection Hs as <-.
    pose proof (IH (length r) ltac:(lia) r eq_refl s' Hd). simpl. lia. }
  destruct b as [|b0 r0]; [intros [= <-]; simpl; lia|].
  simpl in Hn. cbn [utf8_decode].
  repeat case_match; subst; simpl in *; try congruence; intros Hs.
  all: first [ apply (Hrec _ 0%nat) in Hs; lia
             | apply (Hrec _ 1%nat) in Hs; lia
             | apply (Hrec _ 2%nat) in Hs; lia
             | apply (Hrec _ 3%nat) in Hs; lia ].
Qed.

(** A device with its three attributes, taken apart. *)
Lemma from_ble_device_cases (ble_device : BLEDevice.t) :
  (BLEDevice.name ble_device = None \/
   BLEDevice.raw_data ble_device = None \/
   BLEDevice.id ble_device = None) /\
  from_ble_device ble_device = Err AssertionError
  \/
  exists name raw_data id,
    BLEDevice.name ble_device = Some name /\
    BLEDevice.raw_data ble_device = Some raw_data /\
    BLEDevice.id ble_device = Some id /\
    from_ble_device ble_device
    = parse_fields raw_data
      ≫= fun fields => decode_fields fields (BLEDevice.mac ble_device) id.
Proof.
  destruct ble_device as [[id|] mac [name|] [raw|]]; simpl;
    try (left; split; [auto|reflexivity]).
  right. by exists name, raw, id.
Qed.

End DecoderFurther.

(** X6: in the mapping built from the parser's output a type code is
    missing exactly when no yielded pair carries it, and a value found
    under a type code is the value of a yielded pair with that code. *)
Theorem parse_fields_lookup (data : bytes) (fields : gmap Z bytes)
    (k : Z) (v : bytes) :
  parse_fields data = Ok fields ->
  (fields !! k = None <-> k ∉ (iter_fields data).1.*1) /\
  (fields !! k = Some v -> (k, v) ∈ (iter_fields data).1).
Proof.
  unfold parse_fields. intros Hp.
  destruct (iter_fields data) as [fs st]. simpl.
  assert (fields = collect fs) as -> by (destruct st; congruence).
  split; [apply collect_lookup_None|apply collect_lookup_Some].
Qed.

Lemma parse_fields_lookup_witness :
  (collect (iter_fields Sample.renamed).1 !! 9 = None
   <-> 9 ∉ (iter_fields Sample.renamed).1.*1) /\
  (collect (iter_fields Sample.renamed).1 !! 9 = Some [Byte.x51; Byte.x54]
   -> (9, [Byte.x51; Byte.x54]) ∈ (iter_fields Sample.renamed).1).
Proof.
  refine (parse_fields_lookup Sample.renamed _ 9 [Byte.x51; Byte.x54] _).
  reflexivity.
Defined.

(** X7: the decoder produces a record exactly when the name bytes (the
    empty string for an absent name field) are valid UTF-8, the
    manufacturer data are exactly six bytes, and the color bits of the
    first two of them assemble to a value from 1 to 6.  The mode bits
    never make it fail. *)
Theorem decode_fields_succeeds_iff (fields : gmap Z bytes) (mac : str) (id : Z) :
  (exists r, decode_fields fields mac id = Ok r) <->
  (exists name, utf8_decode (default [] (fields !! 9)) = Ok name) /\
  (exists b0 b1 b2 b3 b4 b5,
      fields !! 255 = Some [b0; b1; b2; b3; b4; b5] /\
      1 <= color_bits (byte_val b0) (byte_val b1) <= 6).
Proof.
  split.
  - intros [r (name & b0 & b1 & b2 & b3 & b4 & b5 & Hn & Hmd & Hc & _)%decode_fields_Ok].
    split; [by exists name|]. exists b0, b1, b2, b3, b4, b5. split; [done|].
    destruct (decide (1 <= color_bits (byte_val b0) (byte_val b1) <= 6))
      as [|Hbad]; [done|].
    by rewrite (QTColor_of_value_Err _ Hbad) in Hc.
  - intros [[name Hn] (b0 & b1 & b2 & b3 & b4 & b5 & Hmd & Hc)].
    destruct (QTColor_of_value_some _ Hc) as [c Hc'].
    destruct (QTMode_of_value_some (mode_bits (byte_val b2) (byte_val b3)))
      as [m Hm].
    { pose proof (mode_bits_range b2 b3). lia. }
    unfold decode_fields. rewrite Hn, Hmd. simpl. rewrite Hc'. simpl.
    rewrite Hm. simpl. by eexists.
Qed.

(** X8: every color, with every mode other than UNCONFIGURED, is decoded
    from some mapping; the mode UNCONFIGURED is decoded from none (only
    three mode bits are assembled). *)
Theorem decode_fields_reachable (c : QTColor.t) (m : QTMode.t) :
  (exists fields mac id r,
      decode_fields fields mac id = Ok r /\
      QTDevice.color r = c /\ QTDevice.mode r = m) <->
  m <> QTMode.UNCONFIGURED.
Proof.
  split.
  - intros (fields & mac & id & r & Hd & _ & <-) Hm.
    apply decode_fields_Ok in Hd
      as (name & b0 & b1 & b2 & b3 & b4 & b5 & _ & _ & _ & Hmode & _).
    apply QTMode_of_value_Ok in Hmode. rewrite Hm in Hmode.
    pose proof (mode_bits_range b2 b3). simpl in Hmode. lia.
  - intros Hm.
    exists {[ 255 := payload_of (QTColor.value c) (QTMode.value m)
                       false false Byte.x00 ]}, [], 0.
    destruct c, m; try done; eexists; repeat split.
Qed.

(** X9: the battery voltage of a decoded record lies between 0.0 and
    15.3 (and so is a number, not NaN). *)
Theorem decode_fields_vbat_range (fields : gmap Z bytes) (mac : str) (id : Z)
    (r : QTDevice.t) :
  decode_fields fields mac id = Ok r ->
  PrimFloat.leb 0 (QTDevice.vbat r) = true /\
  PrimFloat.leb (QTDevice.vbat r) (truediv (255 * 60) 1000) = true.
Proof.
  intros (name & b0 & b1 & b2 & b3 & b4 & b5 & _ & _ & _ & _ & ->)%decode_fields_Ok.
  simpl. destruct b5; vm_compute; by split.
Qed.

Lemma decode_fields_vbat_range_witness :
  PrimFloat.leb 0 12 = true /\
  PrimFloat.leb 12 (truediv (255 * 60) 1000) = true.
Proof.
  refine (decode_fields_vbat_range
            {[ 9 := Sample.name; 255 := Sample.payload_user ]} Sample.mac 1
            {| QTDevice.ble_device_id := 1;
               QTDevice.name := [81; 84; 45; 49];
               QTDevice.mac := Sample.mac;
               QTDevice.color := QTColor.LIGHTGREEN;
               QTDevice.mode := QTMode.USER;
               QTDevice.armed := true;
               QTDevice.snowmode := true;
               QTDevice.vbat := 12 |} _).
  reflexivity.
Defined.

(** X10: when the name field holds only ASCII bytes, the name of the
    decoded record is those bytes, one character per byte. *)
Theorem decode_fields_ascii_name (fields : gmap Z bytes) (mac : str) (id : Z)
    (nm : bytes) (r : QTDevice.t) :
  fields !! 9 = Some nm ->
  Forall (fun c => byte_val c < 0x80) nm ->
  decode_fields fields mac id = Ok r ->
  QTDevice.name r = map byte_val nm.
Proof.
  intros Hnm Hascii
    (name & b0 & b1 & b2 & b3 & b4 & b5 & Hn & _ & _ & _ & ->)%decode_fields_Ok.
  rewrite Hnm in Hn. simpl in Hn. rewrite utf8_decode_ascii in Hn by done.
  simpl. congruence.
Qed.

Lemma decode_fields_ascii_name_witness :
  [81; 84; 45; 49] = map byte_val Sample.name.
Proof.
  refine (decode_fields_ascii_name
            {[ 9 := Sample.name; 255 := Sample.payload_user ]} Sample.mac 1
            Sample.name
            {| QTDevice.ble_device_id := 1;
               QTDevice.name := [81; 84; 45; 49];
               QTDevice.mac := Sample.mac;
               QTDevice.color := QTColor.LIGHTGREEN;
               QTDevice.mode := QTMode.USER;
               QTDevice.armed := true;
               QTDevice.snowmode := true;
               QTDevice.vbat := 12 |} _ _ _).
  - reflexivity.
  - repeat constructor.
  - reflexivity.
Defined.

(** X11: [from_ble_device] raises [AssertionError] exactly when the
    device's name, raw data or id is missing; it does so whatever the
    other attributes hold (malformed raw data included), and neither the
    parser nor the decoder ever raises it. *)
Theorem from_ble_device_asserts (ble_device : BLEDevice.t) :
  from_ble_device ble_device = Err AssertionError <->
  BLEDevice.name ble_device = None \/
  BLEDevice.raw_data ble_device = None \/
  BLEDevice.id ble_device = None.
Proof.
  destruct (from_ble_device_cases ble_device)
    as [[Hnone Hd]|(name & raw & id & Hn & Hr & Hi & Hd)]; [done|].
  rewrite Hd, Hn, Hr, Hi. split; [|intros [?|[?|?]]; done].
  destruct (parse_fields raw) as [fields|e] eqn:Hp; simpl.
  - by intros [?|[?|?]]%decode_fields_Err.
  - intros [= ->]. by apply parse_fields_Err, iter_fields_raised in Hp as [? _].
Qed.

(** X12: the device's name attribute is only checked for presence: two
    devices that both have a name and agree on id, MAC and raw data give
    the same result - the record's name is read from the raw data. *)
Theorem from_ble_device_name_unused (d1 d2 : BLEDevice.t) :
  is_Some (BLEDevice.name d1) -> is_Some (BLEDevice.name d2) ->
  BLEDevice.id d1 = BLEDevice.id d2 ->
  BLEDevice.mac d1 = BLEDevice.mac d2 ->
  BLEDevice.raw_data d1 = BLEDevice.raw_data d2 ->
  from_ble_device d1 = from_ble_device d2.
Proof.
  destruct d1 as [id1 mac1 name1 raw1], d2 as [id2 mac2 name2 raw2]. simpl.
  intros [n1 ->] [n2 ->] -> -> ->. reflexivity.
Qed.

Lemma from_ble_device_name_unused_witness :
  from_ble_device {| BLEDevice.id := Some 7; BLEDevice.mac := Sample.mac;
                     BLEDevice.name := Some [81; 84; 45; 49];
                     BLEDevice.raw_data := Some (encode Sample.records) |}
  = from_ble_device {| BLEDevice.id := Some 7; BLEDevice.mac := Sample.mac;
                       BLEDevice.name := Some [];
                       BLEDevice.raw_data := Some (encode Sample.records) |}.
Proof.
  refine (from_ble_device_name_unused _ _ _ _ _ _ _);
    try reflexivity; by eexists.
Defined.

(** X13: on a device with all three attributes whose raw data are whole
    records followed by a zero length byte and any padding,
    [from_ble_device] is the decoder applied to the mapping of those
    records (a later record overwriting an earlier one of its type), the
    device's MAC and its id; the padding plays no role. *)
Theorem from_ble_device_records (rs : list (Byte.byte * bytes))
    (padding : bytes) (id : Z) (mac name : str) :
  Forall fits rs ->
  from_ble_device {| BLEDevice.id := Some id; BLEDevice.mac := mac;
                     BLEDevice.name := Some name;
                     BLEDevice.raw_data :=
                       Some (encode rs ++ Byte.x00 :: padding) |}
  = decode_fields (collect (map pair_of rs)) mac id.
Proof.
  intros Hrs. rewrite from_ble_device_Some. unfold parse_fields.
  rewrite (iter_fields_shape rs _ [] Returned Hrs (tail_zero padding)).
  by rewrite app_nil_r.
Qed.

Lemma from_ble_device_records_witness :
  from_ble_device {| BLEDevice.id := Some 7; BLEDevice.mac := Sample.mac;
                     BLEDevice.name := Some [];
                     BLEDevice.raw_data :=
                       Some (encode Sample.records
                             ++ Byte.x00 :: [Byte.xff; Byte.xff]) |}
  = decode_fields (collect (map pair_of Sample.records)) Sample.mac 7.
Proof.
  refine (from_ble_device_records Sample.records [Byte.xff; Byte.xff] 7
            Sample.mac [] _).
  repeat constructor; unfold fits; simpl; lia.
Defined.

(** X14: for both enumerations, constructing a member from an integer
    succeeds exactly when the integer is a member's value and then gives
    that member; in particular the value of a member gives the member
    back, and distinct members have distinct values. *)
Theorem enum_of_value_iff (v : Z) (c : QTColor.t) (m : QTMode.t) :
  (QTColor.of_value v = Ok c <-> QTColor.value c = v) /\
  (QTMode.of_value v = Ok m <-> QTMode.value m = v).
Proof.
  split; (split; [|intros <-]).
  - apply QTColor_of_value_Ok.
  - by destruct c.
  - apply QTMode_of_value_Ok.
  - by destruct m.
Qed.

(** * Properties of Base64 and of [from_create] *)

Section Base64Facts.

Lemma byte_of_val (b : Byte.byte) : byte_of_Z (byte_val b) = b.
Proof. destruct b; reflexivity. Qed.

Lemma all_bytes_In (b : Byte.byte) : In b all_bytes.
Proof.
  apply in_map_iff. exists (Z.to_nat (byte_val b)).
  pose proof (byte_val_range b). split.
  - rewrite Z2Nat.id by lia. apply byte_of_val.
  - apply in_seq. lia.
Qed.

Lemma all_bytes_forall2 (P : Byte.byte -> Byte.byte -> bool) :
  forallb (fun a => forallb (P a) all_bytes) all_bytes = true ->
  forall a b, P a b = true.
Proof.
  intros H a b. rewrite forallb_forall in H.
  specialize (H a (all_bytes_In a)). rewrite forallb_forall in H.
  exact (H b (all_bytes_In b)).
Qed.

Lemma check_sextet1_all a b : check_sextet1 a b = true.
Proof. revert a b. apply all_bytes_forall2. vm_compute. reflexivity. Qed.

Lemma check_sextet2_all b c : check_sextet2 b c = true.
Proof. revert b c. apply all_bytes_forall2. vm_compute. reflexivity. Qed.

Lemma check_char_all v : 0 <= v <= 63 -> check_char v = true.
Proof.
  intros Hv.
  assert (forallb check_char (seqZ 0 64) = true) as H by (vm_compute; reflexivity).
  rewrite forallb_forall in H. apply H, list_elem_of_In, elem_of_seqZ. lia.
Qed.

(** A character of the alphabet read back by the decoder. *)
Lemma chr_val v :
  in_range 0 63 v = true ->
  byte_val (Base64.chr v) = Base64.b2a v /\
  (Base64.b2a v =? Base64.PAD) = false /\
  Base64.a2b (Base64.b2a v) = Some v /\
  (Base64.b2a v <? 128) = true.
Proof.
  unfold in_range. intros [Hlo%Z.leb_le Hhi%Z.leb_le]%andb_true_iff.
  pose proof (check_char_all v (conj Hlo Hhi)) as H. unfold check_char in H.
  apply andb_true_iff in H as [H' H4]. apply andb_true_iff in H' as [H' H3].
  apply andb_true_iff in H' as [H1 H2].
  apply Z.eqb_eq in H4. apply negb_true_iff in H2.
  unfold in_range in H3. apply andb_true_iff in H3 as [_ H3%Z.leb_le].
  repeat split; try done.
  - destruct (Base64.a2b _) as [v'|]; [|done]. by apply Z.eqb_eq in H1 as ->.
  - apply Z.ltb_lt. lia.
Qed.

Lemma sextet1_facts (a b : Byte.byte) :
  in_range 0 63 (Z.shiftr (byte_val a) 2) = true /\
  in_range 0 63 (sextet1 (byte_val a) (byte_val b)) = true /\
  Z.lor (Z.shiftl (Z.shiftr (byte_val a) 2) 2)
        (Z.shiftr (sextet1 (byte_val a) (byte_val b)) 4) = byte_val a /\
  Z.land (sextet1 (byte_val a) (byte_val b)) 0xF = Z.shiftr (byte_val b) 4 /\
  in_range 0 63 (Z.shiftl (Z.land (byte_val a) 3) 4) = true /\
  Z.lor (Z.shiftl (Z.shiftr (byte_val a) 2) 2)
        (Z.shiftr (Z.shiftl (Z.land (byte_val a) 3) 4) 4) = byte_val a.
Proof.
  pose proof (check_sextet1_all a b) as H. unfold check_sextet1 in H.
  assert (sextet1 (byte_val a) 0 = Z.shiftl (Z.land (byte_val a) 3) 4) as Hs
    by (unfold sextet1; by rewrite Z.shiftr_0_l, Z.lor_0_r).
  rewrite Hs in H.
  do 5 (apply andb_true_iff in H as [H ?]).
  repeat split; try done; by apply Z.eqb_eq.
Qed.

Lemma sextet2_facts (b c : Byte.byte) :
  in_range 0 63 (sextet2 (byte_val b) (byte_val c)) = true /\
  in_range 0 63 (Z.land (byte_val c) 0x3F) = true /\
  Z.lor (Z.shiftl (Z.shiftr (byte_val b) 4) 4)
        (Z.shiftr (sextet2 (byte_val b) (byte_val c)) 2) = byte_val b /\
  Z.lor (Z.shiftl (Z.land (sextet2 (byte_val b) (byte_val c)) 3) 6)
        (Z.land (byte_val c) 0x3F) = byte_val c /\
  in_range 0 63 (Z.shiftl (Z.land (byte_val b) 0xF) 2) = true /\
  Z.lor (Z.shiftl (Z.shiftr (byte_val b) 4) 4)
        (Z.shiftr (Z.shiftl (Z.land (byte_val b) 0xF) 2) 2) = byte_val b.
Proof.
  pose proof (check_sextet2_all b c) as H. unfold check_sextet2 in H.
  assert (sextet2 (byte_val b) 0 = Z.shiftl (Z.land (byte_val b) 0xF) 2) as Hs
    by (unfold sextet2; by rewrite Z.shiftr_0_l, Z.lor_0_r).
  rewrite Hs in H.
  do 5 (apply andb_true_iff in H as [H ?]).
  repeat split; try done; by apply Z.eqb_eq.
Qed.

(** One alphabet character through the decoder's loop. *)
Lemma a2b_base64_chr v s q lc pc :
  in_range 0 63 v = true ->
  Base64.a2b_base64 (byte_val (Base64.chr v) :: s) q lc pc
  = match q with
    | 0%nat => Base64.a2b_base64 s 1 v 0
    | 1%nat =>
        Base64.emit (Z.lor (Z.shiftl lc 2) (Z.shiftr v 4))
          (Base64.a2b_base64 s 2 (Z.land v 0xF) 0)
    | 2%nat =>
        Base64.emit (Z.lor (Z.shiftl lc 4) (Z.shiftr v 2))
          (Base64.a2b_base64 s 3 (Z.land v 3) 0)
    | _ => Base64.emit (Z.lor (Z.shiftl lc 6) v) (Base64.a2b_base64 s 0 0 0)
    end.
Proof.
  intros (Hc & Hp & Ha & _)%chr_val. cbn [Base64.a2b_base64].
  by rewrite Hc, Hp, Ha.
Qed.

Lemma emit_val (b : Byte.byte) (r : attempt bytes) :
  Base64.emit (byte_val b) r
  = match r with Value bs => Value (b :: bs) | Raise e => Raise e end.
Proof. unfold Base64.emit. by rewrite byte_of_val. Qed.

(** Decoding the encoding gives the bytes back. *)
Lemma a2b_base64_b64text (x : bytes) :
  Base64.a2b_base64 (b64text x) 0 0 0 = Value x.
Proof.
  remember (length x) as n eqn:Hn. revert x Hn.
  induction n as [n IH] using lt_wf_ind. intros x Hn.
  destruct x as [|a [|b [|c rest]]].
  - reflexivity.
  - destruct (sextet1_facts a a) as (H0 & _ & _ & _ & H1 & Ha).
    unfold b64text. cbn [Base64.b64encode map].
    rewrite (a2b_base64_chr _ _ _ _ _ H0), (a2b_base64_chr _ _ _ _ _ H1).
    rewrite Ha, emit_val. reflexivity.
  - destruct (sextet1_facts a b) as (H0 & H1 & Ha & Hl & _ & _).
    destruct (sextet2_facts b b) as (_ & _ & _ & _ & H2 & Hb).
    unfold b64text. cbn [Base64.b64encode map].
    fold (sextet1 (byte_val a) (byte_val b)).
    rewrite (a2b_base64_chr _ _ _ _ _ H0), (a2b_base64_chr _ _ _ _ _ H1),
      (a2b_base64_chr _ _ _ _ _ H2).
    rewrite Ha, Hl, Hb, !emit_val. reflexivity.
  - destruct (sextet1_facts a b) as (H0 & H1 & Ha & Hl & _ & _).
    destruct (sextet2_facts b c) as (H2 & H3 & Hb & Hc & _ & _).
    unfold b64text. cbn [Base64.b64encode map].
    fold (sextet1 (byte_val a) (byte_val b)).
    fold (sextet2 (byte_val b) (byte_val c)).
    rewrite (a2b_base64_chr _ _ _ _ _ H0), (a2b_base64_chr _ _ _ _ _ H1),
      (a2b_base64_chr _ _ _ _ _ H2), (a2b_base64_chr _ _ _ _ _ H3).
    rewrite Ha, Hl, Hb, Hc, !emit_val.
    fold (b64text rest).
    by rewrite (IH (length rest) ltac:(subst n; simpl; lia) rest eq_refl).
Qed.

(** Lists taken three elements at a time, as the encoder takes them. *)
Lemma list_ind3 {A} (P : list A -> Prop) :
  P [] -> (forall a, P [a]) -> (forall a b, P [a; b]) ->
  (forall a b c rest, P rest -> P (a :: b :: c :: rest)) ->
  forall l, P l.
Proof.
  intros H0 H1 H2 H3 l.
  remember (length l) as n eqn:Hn. revert l Hn.
  induction n as [n IH] using lt_wf_ind. intros l Hn.
  destruct l as [|a [|b [|c rest]]]; auto.
  apply H3, (IH (length rest)); [subst n; simpl; lia|done].
Qed.

Lemma chr_ascii v : in_range 0 63 v = true -> byte_val (Base64.chr v) < 0x80.
Proof. intros (-> & _ & _ & H)%chr_val. by apply Z.ltb_lt. Qed.

(** The encoder's output is ASCII text. *)
Lemma b64encode_ascii (x : bytes) :
  Forall (fun c => byte_val c < 0x80) (Base64.b64encode x).
Proof.
  induction x as [|a|a b|a b c rest IH] using list_ind3;
    cbn [Base64.b64encode].
  - constructor.
  - destruct (sextet1_facts a a) as (H0 & _ & _ & _ & H1 & _).
    repeat constructor; by apply chr_ascii.
  - destruct (sextet1_facts a b) as (H0 & H1 & _).
    destruct (sextet2_facts b b) as (_ & _ & _ & _ & H2 & _).
    repeat constructor; by apply chr_ascii.
  - destruct (sextet1_facts a b) as (H0 & H1 & _).
    destruct (sextet2_facts b c) as (H2 & H3 & _).
    repeat (constructor; [by apply chr_ascii|]). exact IH.
Qed.

Lemma b64encode_length (x : bytes) :
  length (Base64.b64encode x) = (4 * ((length x + 2) / 3))%nat.
Proof.
  induction x as [|a|a b|a b c rest IH] using list_ind3; try reflexivity.
  cbn [Base64.b64encode length]. rewrite IH.
  replace (S (S (S (length rest))) + 2)%nat
    with ((length rest + 2) + 1 * 3)%nat by lia.
  rewrite Nat.div_add by done. lia.
Qed.

Lemma b64text_nonempty (x : bytes) : x <> [] -> b64text x <> [].
Proof. unfold b64text. by destruct x as [|a [|b [|c rest]]]. Qed.

Lemma b64decode_b64text (x : bytes) : Base64.b64decode (b64text x) = Value x.
Proof.
  unfold Base64.b64decode.
  replace (forallb (fun c => c <? 128) (b64text x)) with true.
  - apply a2b_base64_b64text.
  - symmetry. apply forallb_forall. intros c Hc. apply Z.ltb_lt.
    unfold b64text in Hc. apply in_map_iff in Hc as (b & <- & Hb).
    pose proof (b64encode_ascii x) as H. rewrite Forall_forall in H.
    apply H. by apply list_elem_of_In.
Qed.

Lemma utf8_decode_b64encode (x : bytes) :
  utf8_decode (Base64.b64encode x) = Ok (b64text x).
Proof. apply utf8_decode_ascii, b64encode_ascii. Qed.

Lemma from_create_b64text (mac : str) (name : option str) (x : bytes) :
  x <> [] ->
  from_create {| BLEDeviceCreate.mac := mac;
                 BLEDeviceCreate.name := name;
                 BLEDeviceCreate.raw_data := Some (b64text x) |}
  = Value {| BLEDevice.id := None; BLEDevice.mac := mac;
             BLEDevice.name := name; BLEDevice.raw_data := Some x |}.
Proof.
  intros Hx. unfold from_create. simpl.
  pose proof (b64text_nonempty x Hx) as Ht.
  destruct (b64text x) as [|c t] eqn:Hs; [done|].
  rewrite <- Hs. by rewrite b64decode_b64text.
Qed.

End Base64Facts.

(** X15: [raw_data_b64] never raises.  It is [None] for missing and for
    empty raw data alike; for [n > 0] bytes of raw data it is their Base64
    text, which has [4 * ceil(n / 3)] characters, all of them ASCII. *)
Theorem raw_data_b64_total (self : BLEDevice.t) :
  ((BLEDevice.raw_data self = None \/ BLEDevice.raw_data self = Some []) /\
   raw_data_b64 self = Ok None) \/
  (exists b,
      BLEDevice.raw_data self = Some b /\ b <> [] /\
      raw_data_b64 self = Ok (Some (b64text b)) /\
      length (b64text b) = (4 * ((length b + 2) / 3))%nat /\
      Forall (fun c => 0 <= c < 0x80) (b64text b)).
Proof.
  unfold raw_data_b64.
  destruct (BLEDevice.raw_data self) as [[|a b]|]; [left; auto| |left; auto].
  right. exists (a :: b). rewrite utf8_decode_b64encode.
  repeat split; try done.
  - unfold b64text. by rewrite length_map, b64encode_length.
  - unfold b64text. apply Forall_map.
    eapply Forall_impl; [apply b64encode_ascii|].
    intros c Hc. cbv beta in *. pose proof (byte_val_range c). lia.
Qed.

(** X16: raw data survive the way through Base64 text: [from_create] on
    the Base64 text of non-empty bytes gives a device (without id) whose
    raw data are those bytes, and [raw_data_b64] of that device is the
    same text again. *)
Theorem from_create_roundtrip (mac : str) (name : option str) (x : bytes) :
  x <> [] ->
  from_create {| BLEDeviceCreate.mac := mac;
                 BLEDeviceCreate.name := name;
                 BLEDeviceCreate.raw_data := Some (b64text x) |}
  = Value {| BLEDevice.id := None; BLEDevice.mac := mac;
             BLEDevice.name := name; BLEDevice.raw_data := Some x |} /\
  raw_data_b64 {| BLEDevice.id := None; BLEDevice.mac := mac;
                  BLEDevice.name := name; BLEDevice.raw_data := Some x |}
  = Ok (Some (b64text x)).
Proof.
  intros Hx. split.
  - by apply from_create_b64text.
  - unfold raw_data_b64. simpl. destruct x as [|a x]; [done|].
    by rewrite utf8_decode_b64encode.
Qed.

Lemma from_create_roundtrip_witness :
  from_create {| BLEDeviceCreate.mac := Sample.mac;
                 BLEDeviceCreate.name := None;
                 BLEDeviceCreate.raw_data := Some [65; 119; 108; 66] |}
  = Value {| BLEDevice.id := None; BLEDevice.mac := Sample.mac;
             BLEDevice.name := None;
             BLEDevice.raw_data := Some Sample.truncated |} /\
  raw_data_b64 {| BLEDevice.id := None; BLEDevice.mac := Sample.mac;
                  BLEDevice.name := None;
                  BLEDevice.raw_data := Some Sample.truncated |}
  = Ok (Some [65; 119; 108; 66]).
Proof.
  refine (from_create_roundtrip Sample.mac None Sample.truncated _). done.
Defined.

(** X17: a device made by [from_create] has no id, so [from_ble_device]
    refuses it with [AssertionError], whatever its name and raw data. *)
Theorem from_create_then_from_ble_device (raw_device : BLEDeviceCreate.t)
    (d : BLEDevice.t) :
  from_create raw_device = Value d ->
  BLEDevice.id d = None /\ from_ble_device d = Err AssertionError.
Proof.
  unfold from_create. intros H.
  assert (BLEDevice.id d = None) as Hid.
  { destruct (BLEDeviceCreate.raw_data raw_device) as [[|c s]|];
      try (by injection H as <-).
    destruct (Base64.b64decode (c :: s)); [by injection H as <-|done]. }
  split; [done|].
  destruct d as [id mac name raw]. simpl in Hid. subst id.
  unfold from_ble_device. simpl. destruct name; [|done]. by destruct raw.
Qed.

Lemma from_create_then_from_ble_device_witness :
  BLEDevice.id {| BLEDevice.id := None; BLEDevice.mac := Sample.mac;
                  BLEDevice.name := Some [81];
                  BLEDevice.raw_data := Some Sample.truncated |} = None /\
  from_ble_device {| BLEDevice.id := None; BLEDevice.mac := Sample.mac;
                     BLEDevice.name := Some [81];
                     BLEDevice.raw_data := Some Sample.truncated |}
  = Err AssertionError.
Proof.
  refine (from_create_then_from_ble_device
            {| BLEDeviceCreate.mac := Sample.mac;
               BLEDeviceCreate.name := Some [81];
               BLEDeviceCreate.raw_data := Some [65; 119; 108; 66] |} _ _).
  reflexivity.
Defined.

(** X18: the whole way from an upload to a record: for raw data that are
    whole records followed by a zero length byte and any padding, sent as
    Base64 text with some name, [from_create] gives a device, and once
    that device has an id [from_ble_device] is the decoder applied to the
    mapping of the records, the MAC and the id. *)
Theorem upload_to_record (rs : list (Byte.byte * bytes)) (padding : bytes)
    (id : Z) (mac name : str) :
  Forall fits rs ->
  exists d,
    from_create {| BLEDeviceCreate.mac := mac;
                   BLEDeviceCreate.name := Some name;
                   BLEDeviceCreate.raw_data :=
                     Some (b64text (encode rs ++ Byte.x00 :: padding)) |}
    = Value d /\
    from_ble_device (with_id id d)
    = decode_fields (collect (map pair_of rs)) mac id.
Proof.
  intros Hrs. eexists. split.
  - apply from_create_b64text.
    intros H. apply (f_equal length) in H. rewrite length_app in H.
    simpl in H. lia.
  - unfold with_id. simpl. rewrite from_ble_device_Some. unfold parse_fields.
    rewrite (iter_fields_shape rs _ [] Returned Hrs (tail_zero padding)).
    by rewrite app_nil_r.
Qed.

Lemma upload_to_record_witness :
  exists d,
    from_create {| BLEDeviceCreate.mac := Sample.mac;
                   BLEDeviceCreate.name := Some [81];
                   BLEDeviceCreate.raw_data :=
                     Some (b64text (encode Sample.records ++ Byte.x00 :: [])) |}
    = Value d /\
    from_ble_device (with_id 7 d)
    = decode_fields (collect (map pair_of Sample.records)) Sample.mac 7.
Proof.
  refine (upload_to_record Sample.records [] 7 Sample.mac [81] _).
  repeat constructor; unfold fits; simpl; lia.
Defined.

(** X19: [from_ble_device] raises [IndexError] exactly when the device
    has its name, raw data and id and the raw data are whole records
    followed by a single non-zero length byte. *)
Theorem from_ble_device_IndexError_iff (ble_device : BLEDevice.t) :
  from_ble_device ble_device = Err IndexError <->
  is_Some (BLEDevice.name ble_device) /\
  is_Some (BLEDevice.id ble_device) /\
  exists rs l,
    Forall fits rs /\ byte_val l <> 0 /\
    BLEDevice.raw_data ble_device = Some (encode rs ++ [l]).
Proof.
  destruct (from_ble_device_cases ble_device)
    as [[Hnone Hd]|(name & raw & id & Hn & Hr & Hi & Hd)].
  - rewrite Hd. split; [done|].
    intros ([n Hn] & [i Hi] & rs & l & _ & _ & Hr).
    destruct Hnone as [?|[?|?]]; congruence.
  - rewrite Hd, Hn, Hr, Hi. split.
    + destruct (parse_fields raw) as [fields|e] eqn:Hp; simpl.
      * by intros [?|[?|?]]%decode_fields_Err.
      * intros [= ->].
        apply parse_fields_Err, iter_fields_raised in Hp
          as (_ & rs & l & Hrs & Hl & ->).
        repeat split; try by eexists. by exists rs, l.
    + intros (_ & _ & rs & l & Hrs & Hl & [= ->]).
      unfold parse_fields.
      by rewrite (iter_fields_shape rs [l] [] (Raised IndexError) Hrs
                    (tail_lone l Hl)).
Qed.

(** X20: a record made by [from_ble_device] carries the device's MAC and
    id unchanged, and its name has at most 254 characters. *)
Theorem from_ble_device_record (ble_device : BLEDevice.t) (r : QTDevice.t) :
  from_ble_device ble_device = Ok r ->
  QTDevice.mac r = BLEDevice.mac ble_device /\
  BLEDevice.id ble_device = Some (QTDevice.ble_device_id r) /\
  (length (QTDevice.name r) <= 254)%nat.
Proof.
  destruct (from_ble_device_cases ble_device)
    as [[Hnone Hd]|(name & raw & id & Hn & Hr & Hi & Hd)];
    rewrite Hd; [done|].
  destruct (parse_fields raw) as [fields|e] eqn:Hp; [|done]. simpl.
  intros Hok.
  destruct (decode_fields_Ok _ _ _ _ Hok)
    as (nm & b0 & b1 & b2 & b3 & b4 & b5 & Hnm & _ & _ & _ & Hrec).
  rewrite Hrec. simpl. repeat split; [done|].
  apply utf8_decode_length in Hnm.
  destruct (fields !! 9) as [v|] eqn:H9; simpl in Hnm; [|lia].
  assert (fields = collect (iter_fields raw).1) as ->.
  { unfold parse_fields in Hp. destruct (iter_fields raw) as [fs [| |]];
      simpl; congruence. }
  apply collect_lookup_Some, iter_fields_bounds in H9 as [_ H9]. lia.
Qed.

Lemma from_ble_device_record_witness :
  Sample.mac = Sample.mac /\
  Some 7 = Some 7 /\
  (length [81; 84; 45; 49] <= 254)%nat.
Proof.
  refine (from_ble_device_record
            {| BLEDevice.id := Some 7; BLEDevice.mac := Sample.mac;
               BLEDevice.name := Some [];
               BLEDevice.raw_data := Some (encode Sample.records) |}
            {| QTDevice.ble_device_id := 7;
               QTDevice.name := [81; 84; 45; 49];
               QTDevice.mac := Sample.mac;
               QTDevice.color := QTColor.LIGHTGREEN;
               QTDevice.mode := QTMode.USER;
               QTDevice.armed := true;
               QTDevice.snowmode := true;
               QTDevice.vbat := 12 |} _).
  reflexivity.
Defined.

(** X21: the decoder reads the name field (type code 9) and the
    manufacturer-data field (type code 255) and nothing else: adding,
    replacing or removing a field of any other type changes nothing. *)
Theorem decode_fields_frame (fields : gmap Z bytes) (mac : str) (id : Z)
    (k : Z) (v : bytes) :
  k <> 9 -> k <> 255 ->
  decode_fields (<[k := v]> fields) mac id = decode_fields fields mac id /\
  decode_fields (delete k fields) mac id = decode_fields fields mac id.
Proof.
  intros H9 H255. unfold decode_fields.
  by rewrite !lookup_insert_ne, !lookup_delete_ne.
Qed.

Lemma decode_fields_frame_witness :
  decode_fields (<[1 := [Byte.x06]]>
                   {[ 9 := Sample.name; 255 := Sample.payload_user ]})
    Sample.mac 7
  = decode_fields {[ 9 := Sample.name; 255 := Sample.payload_user ]}
      Sample.mac 7 /\
  decode_fields (delete 1 {[ 9 := Sample.name; 255 := Sample.payload_user ]})
    Sample.mac 7
  = decode_fields {[ 9 := Sample.name; 255 := Sample.payload_user ]}
      Sample.mac 7.
Proof.
  refine (decode_fields_frame
            {[ 9 := Sample.name; 255 := Sample.payload_user ]} Sample.mac 7
            1 [Byte.x06] _ _); done.
Defined.
